(** * TagItJS: trigger detection, query extraction, ranking and splicing

    A shallow embedding of [src/utils.ts] (scoring engine) and
    [src/tagIt.ts] (controller), followed by the properties of the scoring
    engine, of the trigger detection, of the suggestion pipeline and of the
    splice.

    Conventions of the embedding
    - a JavaScript string is the list of its UTF-16 code units ([jsstring]);
    - string indices and DOM offsets are integers ([Z]), with the clamping
      and swapping done by [substring], [lastIndexOf] and [slice] written
      out;
    - the numbers that carry scores and pixel positions are exact
      rationals ([Q]);
    - suggestion objects live in a store ([gmap loc SuggestionItem]) and
      arrays are lists of references into it, so that the in-place
      attachment of [matchScore] is visible through every array that holds
      the object; the arrays themselves are values: a middleware is taken
      not to change the array it is handed in place;
    - an [<input>] or [<textarea>] keeps the string assigned to [value]
      as it is;
    - [String.prototype.toLowerCase] is a parameter of the development;
      [toLowerCaseAscii] instantiates it in the scenarios;
    - [console] output is write-only and is left out. *)

From Stdlib Require Import Ascii String ZArith NArith QArith Qminmax Lia Lqa List.
From Stdlib Require Import Sorted Permutation.
From stdpp Require Import base option list gmap sorting.

Local Open Scope Z_scope.

(** ** Strings as sequences of UTF-16 code units *)

Definition codeunit := N.
Abbreviation jsstring := (list codeunit).

Definition SPACE : codeunit := 32%N.
Definition NBSP : codeunit := 160%N.
Definition AT_SIGN : codeunit := 64%N.

(** [s.length] *)
Definition strlen (s : jsstring) : Z := Z.of_nat (length s).

(** [s.startsWith(p)] *)
Fixpoint startsWith (s p : jsstring) {struct p} : bool :=
  match p, s with
  | [], _ => true
  | _ :: _, [] => false
  | c :: p', d :: s' => N.eqb c d && startsWith s' p'
  end.

(** ToIntegerOrInfinity followed by clamping into [0, len], as done by
    [substring], [lastIndexOf] and [slice] on their position arguments. *)
Definition clamp (len i : Z) : Z := Z.min (Z.max i 0) len.

(** [s.substring(a, b)]: both ends are clamped into [0, length] and swapped
    when they come in the wrong order. *)
Definition substring (s : jsstring) (a b : Z) : jsstring :=
  let a' := clamp (strlen s) a in
  let b' := clamp (strlen s) b in
  let from := Z.min a' b' in
  let to := Z.max a' b' in
  take (Z.to_nat (to - from)) (drop (Z.to_nat from) s).

(** [s.substring(a)] *)
Definition substringFrom (s : jsstring) (a : Z) : jsstring :=
  substring s a (strlen s).

(** [s.indexOf(q)]: scan from the left, [k] is the index of the head of
    [s] in the original string. *)
Fixpoint indexOfFrom (s q : jsstring) (k : Z) : Z :=
  if startsWith s q then k
  else match s with
       | [] => -1
       | _ :: s' => indexOfFrom s' q (k + 1)
       end.

Definition indexOf (s q : jsstring) : Z := indexOfFrom s q 0.

(** [s.lastIndexOf(q, pos)]: candidates are tried from position
    [min(max(pos, 0), length)] downwards; a candidate matches when the whole
    of [q] is found there. *)
Fixpoint lastIndexOfDown (s q : jsstring) (n : nat) : Z :=
  if startsWith (drop n s) q then Z.of_nat n
  else match n with
       | O => -1
       | S n' => lastIndexOfDown s q n'
       end.

Definition lastIndexOf (s q : jsstring) (pos : Z) : Z :=
  lastIndexOfDown s q (Z.to_nat (clamp (strlen s) pos)).

(** [s.split(sep)] for a separator made of the single code unit [c].  The
    result is never empty: [''.split(' ')] is [['']]. *)
Fixpoint split (c : codeunit) (s : jsstring) : list jsstring :=
  match s with
  | [] => [[]]
  | x :: s' =>
      if N.eqb x c then [] :: split c s'
      else match split c s' with
           | [] => [[x]]
           | t :: ts => (x :: t) :: ts
           end
  end.

(** [s.replace(/\u00A0/g, ' ')]: every non-breaking space becomes an
    ordinary space. *)
Definition replaceNbsp (s : jsstring) : jsstring :=
  map (fun x => if N.eqb x NBSP then SPACE else x) s.

(** [parts[parts.length - 1]]; [None] stands for [undefined]. *)
Definition lastElement {A} (l : list A) : option A := last l.

(** Lower-casing restricted to the Basic Latin block: [A]..[Z] are moved
    to [a]..[z] and every other code unit is kept.  It agrees with
    [String.prototype.toLowerCase] on ASCII text and instantiates the
    parameter [toLowerCase] in the concrete scenarios. *)
Definition lowerUnit (c : codeunit) : codeunit :=
  if (N.leb 65 c && N.leb c 90)%bool then (c + 32)%N else c.

Definition toLowerCaseAscii (s : jsstring) : jsstring := map lowerUnit s.

(** String literals for the scenarios: the code units of an ASCII text. *)
Definition str (s : String.string) : jsstring :=
  map N_of_ascii (String.list_ascii_of_string s).

(** ** Data model ([src/utils.ts], [src/tagIt.ts]) *)

(** [interface SuggestionItem]; the optional [matchScore] is [None] while
    it is [undefined]. *)
Record SuggestionItem := mkSuggestion {
  display : jsstring;
  key : jsstring;
  matchScore : option Q
}.

(** Object identity of a suggestion. *)
Definition loc := nat.

(** The objects reachable from the suggestion arrays. *)
Abbreviation Store := (gmap loc SuggestionItem).

(** [interface Coordinates] *)
Record Coordinates := mkCoordinates { top : Q; left : Q }.

(** Outcome of calling a function supplied by the host page. *)
Inductive completion (A : Type) : Type :=
  | Normal (a : A)
  | Throw (err : jsstring).
Arguments Normal {A} a.
Arguments Throw {A} err.

(** [type SuggestionMiddleware]: receives the working array, may touch the
    suggestion objects, and either returns an array or throws. *)
Definition SuggestionMiddleware : Type :=
  Store -> list loc -> Store * completion (list loc).

(** The [<ul>] element owned by an instance: its [style.display],
    [style.top], [style.left] and the text of its [<li>] children. *)
Inductive Display := DisplayNone | DisplayBlock.

Record Dropdown := mkDropdown {
  displayStyle : Display;
  topStyle : Q;
  leftStyle : Q;
  listItems : list jsstring
}.

(** An [<input>] or [<textarea>]: its value and its selection. *)
Record TextControl := mkTextControl {
  value : jsstring;
  selectionStart : Z;
  selectionEnd : Z
}.

(** Identity of a DOM node. *)
Definition node := nat.

(** The part of the DOM the controller reads and rewrites: text nodes with
    their content, elements with their children.  [parentNode] is read off
    the child lists. *)
Inductive DomNode :=
  | TextNode (textContent : jsstring)
  | ElementNode (childNodes : list node).

(** A collapsed-or-not DOM range; only its start is ever used. *)
Record Range := mkRange { startContainer : node; startOffset : Z }.

(** [window.getSelection()]: [None] when the call returns [null],
    [Some None] when [rangeCount] is 0, [Some (Some r)] when
    [getRangeAt(0)] is [r]. *)
Definition Selection := option (option Range).

Record Document := mkDocument {
  nodes : gmap node DomNode;
  selection : Selection
}.

(** The element the instance is attached to. [isInputTarget] is the
    [instanceof] test of the source. *)
Inductive Target :=
  | InputTarget (el : TextControl)
  | EditableTarget.

(** [class TagIt], with the document it lives in and the store of its
    suggestion objects.  The debounce timer and the listeners are not part
    of the state studied here; console output is write-only and left out. *)
Record TagIt := mkTagIt {
  target : Target;
  document : Document;
  store : Store;
  dropdown : Dropdown;
  suggestions : list loc;
  keepTrigger : bool;
  triggerChar : jsstring;
  savedRange : option Range;
  middlewares : list SuggestionMiddleware;
  maxSuggestions : Z;
  minScore : Q
}.

(** ** Array helpers *)

(** [arr.slice(0, n)]: a negative [n] counts from the end. *)
Definition slice0 {A} (arr : list A) (n : Z) : list A :=
  let len := Z.of_nat (length arr) in
  let final := if n <? 0 then Z.max (len + n) 0 else Z.min n len in
  take (Z.to_nat final) arr.

(** [arr.sort(cmp)] for a comparator [cmp] with numeric results: [x] is
    placed before the first [y] with [cmp(x, y) <= 0].  Elements that
    compare equal keep their relative order. *)
Fixpoint sortInsert {A} (cmp : A -> A -> Q) (x : A) (sorted : list A) : list A :=
  match sorted with
  | [] => [x]
  | y :: rest =>
      if Qle_bool (cmp x y) 0%Q then x :: y :: rest
      else y :: sortInsert cmp x rest
  end.

Definition sortBy {A} (cmp : A -> A -> Q) (arr : list A) : list A :=
  foldr (sortInsert cmp) [] arr.

(** [Math.min] and [Math.max] on the rationals. *)
Definition Math_min (a b : Q) : Q := if Qle_bool a b then a else b.
Definition Math_max (a b : Q) : Q := if Qle_bool a b then b else a.

Section TagItJS.

(** [String.prototype.toLowerCase].  Lower-casing maps the empty string,
    and only the empty string, to the empty string. *)
Variable toLowerCase : jsstring -> jsstring.
Hypothesis toLowerCase_empty : forall s, toLowerCase s = [] <-> s = [].

(** ** Scoring engine ([src/utils.ts]) *)

(** [!s] for a string [s] *)
Definition isEmpty (s : jsstring) : bool :=
  match s with [] => true | _ :: _ => false end.

(** [getMatchScore(suggestionKey, query)] *)
Definition getMatchScore (suggestionKey query : jsstring) : Q :=
  let key := toLowerCase suggestionKey in
  let q := toLowerCase query in
  if isEmpty q then 0%Q
  else if bool_decide (key = q) then 1%Q
  else
    let index := indexOf key q in
    if index =? -1 then 0%Q
    else
      let score := (1 - inject_Z index / inject_Z (strlen key))%Q in
      Math_max 0 (Math_min 1 score).

(** [suggestion.matchScore = getMatchScore(suggestion.key, query)] *)
Definition attachScore (query : jsstring) (s : SuggestionItem) : SuggestionItem :=
  mkSuggestion (display s) (key s) (Some (getMatchScore (key s) query)).

(** [suggestions.forEach(suggestion => { suggestion.matchScore = ... })]:
    the objects are updated in place, one after the other. *)
Definition attachScores (query : jsstring) (h : Store) (suggestions : list loc) : Store :=
  foldl (fun h l => alter (attachScore query) l h) h suggestions.

(** [suggestion.matchScore] read through a reference; [undefined] when the
    field was never set. *)
Definition matchScoreOf (h : Store) (l : loc) : option Q :=
  h !! l ≫= matchScore.

(** [suggestion.matchScore! >= minScore]; a comparison with [undefined]
    is false. *)
Definition reachesMinScore (h : Store) (minScore : Q) (l : loc) : bool :=
  match matchScoreOf h l with
  | Some sc => Qle_bool minScore sc
  | None => false
  end.

(** [(a, b) => b.matchScore! - a.matchScore!]; a difference that involves
    [undefined] is [NaN], which [sort] reads as 0. *)
Definition byScoreDescending (h : Store) (a b : loc) : Q :=
  match matchScoreOf h b, matchScoreOf h a with
  | Some sb, Some sa => (sb - sa)%Q
  | _, _ => 0%Q
  end.

(** [sortAndFilterSuggestions(suggestions, query, minScore)]: returns the
    store after the in-place scoring together with the returned array. *)
Definition sortAndFilterSuggestions
    (h : Store) (suggestions : list loc) (query : jsstring) (minScore : Q)
    : Store * list loc :=
  if isEmpty query then (h, suggestions)
  else
    let h' := attachScores query h suggestions in
    let filtered := List.filter (reachesMinScore h' minScore) suggestions in
    (h', sortBy (byScoreDescending h') filtered).

(** ** The controller ([src/tagIt.ts]) *)

Definition withTarget (this : TagIt) (t : Target) : TagIt :=
  mkTagIt t (document this) (store this) (dropdown this) (suggestions this)
    (keepTrigger this) (triggerChar this) (savedRange this)
    (middlewares this) (maxSuggestions this) (minScore this).

Definition withDocument (this : TagIt) (d : Document) : TagIt :=
  mkTagIt (target this) d (store this) (dropdown this) (suggestions this)
    (keepTrigger this) (triggerChar this) (savedRange this)
    (middlewares this) (maxSuggestions this) (minScore this).

Definition withStore (this : TagIt) (h : Store) : TagIt :=
  mkTagIt (target this) (document this) h (dropdown this) (suggestions this)
    (keepTrigger this) (triggerChar this) (savedRange this)
    (middlewares this) (maxSuggestions this) (minScore this).

Definition withDropdown (this : TagIt) (d : Dropdown) : TagIt :=
  mkTagIt (target this) (document this) (store this) d (suggestions this)
    (keepTrigger this) (triggerChar this) (savedRange this)
    (middlewares this) (maxSuggestions this) (minScore this).

Definition withSuggestions (this : TagIt) (l : list loc) : TagIt :=
  mkTagIt (target this) (document this) (store this) (dropdown this) l
    (keepTrigger this) (triggerChar this) (savedRange this)
    (middlewares this) (maxSuggestions this) (minScore this).

Definition withMiddlewares (this : TagIt) (ms : list SuggestionMiddleware) : TagIt :=
  mkTagIt (target this) (document this) (store this) (dropdown this)
    (suggestions this) (keepTrigger this) (triggerChar this) (savedRange this)
    ms (maxSuggestions this) (minScore this).

(** [use(middleware)] *)
Definition use (this : TagIt) (middleware : SuggestionMiddleware) : TagIt :=
  withMiddlewares this (middlewares this ++ [middleware]).

(** [addSuggestion(suggestion)], the argument being the reference [l] *)
Definition addSuggestion (this : TagIt) (l : loc) : TagIt :=
  withSuggestions this (suggestions this ++ [l]).

(** [removeSuggestion(key)] *)
Definition removeSuggestion (this : TagIt) (k : jsstring) : TagIt :=
  withSuggestions this
    (List.filter
       (fun l => match store this !! l with
                 | Some item => negb (bool_decide (key item = k))
                 | None => true
                 end)
       (suggestions this)).

Definition isInputTarget (this : TagIt) : bool :=
  match target this with
  | InputTarget _ => true
  | EditableTarget => false
  end.

(** [selection && selection.rangeCount > 0], then [getRangeAt(0)] *)
Definition firstRange (sel : Selection) : option Range :=
  match sel with
  | Some (Some range) => Some range
  | _ => None
  end.

Definition getTextBeforeCaretForInput (textarea : TextControl) : jsstring :=
  substring (value textarea) 0 (selectionStart textarea).

Definition getTextBeforeCaretForEditable (d : Document) : jsstring :=
  match firstRange (selection d) with
  | Some range =>
      match nodes d !! startContainer range with
      | Some (TextNode text) => substring text 0 (startOffset range)
      | _ => []
      end
  | None => []
  end.

Definition getQueryForInput (trigger : jsstring) (textarea : TextControl) : jsstring :=
  let start := selectionStart textarea in
  let value := value textarea in
  let triggerIndex := lastIndexOf value trigger start in
  if triggerIndex =? -1 then []
  else substring value (triggerIndex + 1) start.

Definition getQueryForEditable (trigger : jsstring) (d : Document) : jsstring :=
  match firstRange (selection d) with
  | Some range =>
      match nodes d !! startContainer range with
      | Some (TextNode textContent) =>
          let triggerIndex := lastIndexOf textContent trigger (startOffset range) in
          if triggerIndex =? -1 then []
          else substring textContent (triggerIndex + 1) (startOffset range)
      | _ => []
      end
  | None => []
  end.

Definition getTriggerQuery (this : TagIt) : jsstring :=
  match target this with
  | InputTarget textarea => getQueryForInput (triggerChar this) textarea
  | EditableTarget => getQueryForEditable (triggerChar this) (document this)
  end.

(** The first value of [textBeforeCaret] in [isTriggerActive]:
    [this.isInputTarget() ? this.getTextBeforeCaretForInput()
                          : this.getTextBeforeCaretForEditable()] *)
Definition textBeforeCaret (this : TagIt) : jsstring :=
  match target this with
  | InputTarget textarea => getTextBeforeCaretForInput textarea
  | EditableTarget => getTextBeforeCaretForEditable (document this)
  end.

(** [isTriggerActive()]. [split] never returns an empty array, so the
    [None] branch (a [TypeError] on [undefined.startsWith]) is dead. *)
Definition isTriggerActive (this : TagIt) : bool :=
  let textBeforeCaret := replaceNbsp (textBeforeCaret this) in
  let parts := split SPACE textBeforeCaret in
  match lastElement parts with
  | Some lastPart =>
      startsWith lastPart (triggerChar this)
      && (indexOf (getTriggerQuery this) [SPACE] =? -1)
  | None => false
  end.

(** The middleware loop of [showDropdown]: the assignment to
    [suggestionsToShow] happens only when the call returns. *)
Fixpoint applyMiddlewares (ms : list SuggestionMiddleware)
    (h : Store) (suggestionsToShow : list loc) : Store * list loc :=
  match ms with
  | [] => (h, suggestionsToShow)
  | middleware :: rest =>
      match middleware h suggestionsToShow with
      | (h', Normal result) => applyMiddlewares rest h' result
      | (h', Throw _) => applyMiddlewares rest h' suggestionsToShow
      end
  end.

(** The list [showDropdown] is about to render: clone, middlewares,
    scoring and filtering, truncation. *)
Definition suggestionPipeline (this : TagIt) : Store * list loc :=
  let '(h1, afterMiddlewares) :=
    applyMiddlewares (middlewares this) (store this) (suggestions this) in
  let query := toLowerCase (getTriggerQuery this) in
  let '(h2, ranked) :=
    sortAndFilterSuggestions h1 afterMiddlewares query (minScore this) in
  (h2, slice0 ranked (maxSuggestions this)).

Definition hideDropdown (this : TagIt) : TagIt :=
  let d := dropdown this in
  withDropdown this (mkDropdown DisplayNone (topStyle d) (leftStyle d) (listItems d)).

(** [item.display] read through a reference *)
Definition displayOf (h : Store) (l : loc) : jsstring :=
  match h !! l with
  | Some item => display item
  | None => []
  end.

(** [showDropdown(position)]; [lineHeight] is the result of
    [getLineHeight(this.target)]. *)
Definition showDropdown (this : TagIt) (position : Coordinates) (lineHeight : Q) : TagIt :=
  let '(h, suggestionsToShow) := suggestionPipeline this in
  let this := withStore this h in
  if (length suggestionsToShow =? 0)%nat then hideDropdown this
  else
    withDropdown this
      (mkDropdown DisplayBlock
         (top position + lineHeight)%Q
         (left position + 5)%Q
         (map (displayOf h) suggestionsToShow)).

(** [textarea.setSelectionRange(pos, pos)]: positions beyond the end of
    the value are brought back to it. *)
Definition setSelectionRange (textarea : TextControl) (pos : Z) : TextControl :=
  let p := clamp (strlen (value textarea)) pos in
  mkTextControl (value textarea) p p.

(** [insertTagForTextarea(tag)] *)
Definition insertTagForTextarea (this : TagIt) (textarea : TextControl)
    (tag : jsstring) : TextControl :=
  let start := selectionStart textarea in
  let end_ := selectionEnd textarea in
  let value := value textarea in
  let triggerIndex := lastIndexOf value (triggerChar this) start in
  if triggerIndex =? -1 then textarea
  else
    let beforeTrigger := substring value 0 triggerIndex in
    let afterCaret := substringFrom value end_ in
    let triggerPart := if keepTrigger this then triggerChar this else [] in
    let newValue := beforeTrigger ++ triggerPart ++ tag ++ [SPACE] ++ afterCaret in
    let newPos := strlen beforeTrigger + strlen triggerPart + strlen tag + 1 in
    setSelectionRange (mkTextControl newValue start end_) newPos.

(** [node.parentNode]: the element that lists [n] among its children,
    with that list. *)
Definition parentNode (ns : gmap node DomNode) (n : node) : option (node * list node) :=
  match
    List.find
      (fun entry => match snd entry with
                    | ElementNode children => bool_decide (n ∈ children)
                    | TextNode _ => false
                    end)
      (map_to_list ns)
  with
  | Some (p, ElementNode children) => Some (p, children)
  | _ => None
  end.

(** [parent.insertBefore(newChild, refChild)] on the child list *)
Fixpoint insertBefore (newChild refChild : node) (children : list node) : list node :=
  match children with
  | [] => [newChild]
  | c :: rest =>
      if Nat.eqb c refChild then newChild :: c :: rest
      else c :: insertBefore newChild refChild rest
  end.

(** [parent.removeChild(child)] on the child list *)
Fixpoint removeChild (child : node) (children : list node) : list node :=
  match children with
  | [] => []
  | c :: rest => if Nat.eqb c child then rest else c :: removeChild child rest
  end.

(** Index of a child in its parent, as used by [setStartAfter]. *)
Fixpoint childIndex (child : node) (children : list node) : Z :=
  match children with
  | [] => 0
  | c :: rest => if Nat.eqb c child then 0 else 1 + childIndex child rest
  end.

(** [document.createTextNode(text)]: a node that is not yet in the tree. *)
Definition createTextNode (ns : gmap node DomNode) (text : jsstring)
    : gmap node DomNode * node :=
  let n := fresh (dom ns) in
  (<[n := TextNode text]> ns, n).

(** The selection after the first block of [insertTagForContentEditable]:
    [if (this.savedRange && selection) { selection.removeAllRanges();
    selection.addRange(this.savedRange); }] *)
Definition restoredSelection (this : TagIt) : Selection :=
  match savedRange this, selection (document this) with
  | Some saved, Some _ => Some (Some saved)
  | _, s => s
  end.

(** [insertTagForContentEditable(tag)] *)
Definition insertTagForContentEditable (this : TagIt) (tag : jsstring) : TagIt :=
  let doc := document this in
  let sel := restoredSelection this in
  let restored := withDocument this (mkDocument (nodes doc) sel) in
  match firstRange sel with
  | None => restored
  | Some range =>
      let n := startContainer range in
      match nodes doc !! n with
      | Some (TextNode textContent) =>
          let triggerIndex :=
            lastIndexOf textContent (triggerChar this) (startOffset range) in
          if triggerIndex =? -1 then restored
          else
            let before := substring textContent 0 triggerIndex in
            let after := substringFrom textContent (startOffset range) in
            let triggerPart := if keepTrigger this then triggerChar this else [] in
            let insertText := triggerPart ++ tag ++ [SPACE] in
            let '(ns1, beforeNode) := createTextNode (nodes doc) before in
            let '(ns2, tagNode) := createTextNode ns1 insertText in
            let '(ns3, afterNode) := createTextNode ns2 after in
            match parentNode (nodes doc) n with
            | None => restored
            | Some (parent, children) =>
                let children :=
                  removeChild n
                    (insertBefore afterNode n
                       (insertBefore tagNode n
                          (insertBefore beforeNode n children))) in
                let newRange := mkRange parent (childIndex tagNode children + 1) in
                withDocument this
                  (mkDocument (<[parent := ElementNode children]> ns3)
                     (Some (Some newRange)))
            end
      | _ => restored
      end
  end.

(** [insertTag(tag)] *)
Definition insertTag (this : TagIt) (tag : jsstring) : TagIt :=
  match target this with
  | InputTarget textarea =>
      withTarget this (InputTarget (insertTagForTextarea this textarea tag))
  | EditableTarget => insertTagForContentEditable this tag
  end.

(** The click handler installed on every [<li>] of the dropdown. *)
Definition onSuggestionClick (this : TagIt) (itemDisplay : jsstring) : TagIt :=
  hideDropdown (insertTag this itemDisplay).

(** ** Specification vocabulary *)

(** [q] occurs in [s] at index [i]. *)
Definition occursAt (q s : jsstring) (i : Z) : Prop :=
  exists pre post, s = pre ++ q ++ post /\ strlen pre = i.

(** [q] is a substring of [s]. *)
Definition isSubstringOf (q s : jsstring) : Prop :=
  exists i, occursAt q s i.

(** [i] is the index of the first occurrence of [q] in [s]. *)
Definition firstOccurrence (q s : jsstring) (i : Z) : Prop :=
  occursAt q s i /\ forall j, occursAt q s j -> i <= j.

(** [i] is the index of the last occurrence of [q] in [s] that starts at
    or before position [pos]. *)
Definition lastOccurrenceUpTo (q s : jsstring) (pos i : Z) : Prop :=
  occursAt q s i /\ i <= pos /\
  forall j, occursAt q s j -> j <= pos -> j <= i.

(** [a] may stand before [b] in a ranking: both carry a score and the
    score of [b] does not exceed the score of [a]. *)
Definition scoredNotBelow (h : Store) (a b : loc) : Prop :=
  exists sa sb,
    matchScoreOf h a = Some sa /\ matchScoreOf h b = Some sb /\ (sb <= sa)%Q.

(** [normalised] is [text] with every non-breaking space (U+00A0) read as
    an ordinary space, and every other code unit kept. *)
Definition nbspReadAsSpace (text normalised : jsstring) : Prop :=
  Forall2 (fun x y => (x = NBSP /\ y = SPACE) \/ (x <> NBSP /\ y = x))
    text normalised.

(** [tok] is the final space-delimited token of [text]: it holds no space
    and is either the whole text or what follows its last space. *)
Definition finalToken (text tok : jsstring) : Prop :=
  (SPACE ∉ tok) /\ (text = tok \/ exists pre, text = pre ++ [SPACE] ++ tok).

(** The trigger does not occur in [text] at or before position [caret]
    (a negative position counts as 0, as the string builtins read it). *)
Definition triggerAbsentUpTo (trigger text : jsstring) (caret : Z) : Prop :=
  forall j, occursAt trigger text j -> ~ (j <= Z.max caret 0).

(** ** Instances used in the scenarios *)

Definition hiddenDropdown : Dropdown := mkDropdown DisplayNone 0 0 [].

(** The suggestion objects [{display:"Alice", key:"Alice"}],
    [{display:"Malice", key:"Malice"}] and [{display:"Bob", key:"Bob"}]. *)
Definition sampleStore : Store :=
  <[2%nat := mkSuggestion (str "Bob") (str "Bob") None]>
    (<[1%nat := mkSuggestion (str "Malice") (str "Malice") None]>
       (<[0%nat := mkSuggestion (str "Alice") (str "Alice") None]> ∅)).

(** An instance attached to a textarea holding [text], with a collapsed
    selection at [caret] and the default trigger [@]. *)
Definition onTextarea (text : jsstring) (caret : Z) (keep : bool) : TagIt :=
  mkTagIt (InputTarget (mkTextControl text caret caret))
    (mkDocument ∅ None) sampleStore hiddenDropdown [0%nat; 1%nat; 2%nat]
    keep [AT_SIGN] None [] 5 0.

(** An instance attached to an editable region whose only child is the
    text node 1 holding [text], with the caret at [offset] in that node. *)
Definition onEditable (text : jsstring) (offset : Z) : TagIt :=
  mkTagIt EditableTarget
    (mkDocument (<[1%nat := TextNode text]> (<[0%nat := ElementNode [1%nat]]> ∅))
       (Some (Some (mkRange 1%nat offset))))
    sampleStore hiddenDropdown [0%nat; 1%nat; 2%nat]
    false [AT_SIGN] None [] 5 0.

(** The middleware of the README: keep the suggestions whose key is
    longer than 3 characters. *)
Definition keepLongKeys : SuggestionMiddleware :=
  fun h suggestions =>
    (h, Normal (List.filter
                  (fun l => match h !! l with
                            | Some item => 3 <? strlen (key item)
                            | None => false
                            end)
                  suggestions)).

(** A middleware that always throws. *)
Definition alwaysThrows : SuggestionMiddleware :=
  fun h _ => (h, Throw (str "boom")).

(** A middleware that reverses the list. *)
Definition reversed : SuggestionMiddleware :=
  fun h suggestions => (h, Normal (rev suggestions)).

(** Scenario D: the candidate set [[{key:"Bob"}]] after
    [removeSuggestion("Bob")]. *)
Definition onlyBob : TagIt :=
  mkTagIt (InputTarget (mkTextControl (str "hi @b") 5 5))
    (mkDocument ∅ None)
    (<[0%nat := mkSuggestion (str "Bob") (str "Bob") None]> ∅)
    (mkDropdown DisplayBlock 30 40 [str "Bob"]) [0%nat]
    false [AT_SIGN] None [] 5 0.

(** The text of the text node that holds the start of the first range of
    [sel], when there is such a range and its container is a text node. *)
Definition caretText (sel : Selection) (ns : gmap node DomNode) : option jsstring :=
  match firstRange sel with
  | Some range =>
      match ns !! startContainer range with
      | Some (TextNode text) => Some text
      | _ => None
      end
  | None => None
  end.

(** ** Events ([onKeyUp], [onOutsideClick], the debounced fetch) *)

Definition withSavedRange (this : TagIt) (r : option Range) : TagIt :=
  mkTagIt (target this) (document this) (store this) (dropdown this)
    (suggestions this) (keepTrigger this) (triggerChar this) r
    (middlewares this) (maxSuggestions this) (minScore this).

(** Identity of a timer, as returned by [window.setTimeout]: a positive
    integer, so that [if (this.fetchTimeout)] holds for every identity. *)
Definition timerId := positive.

(** An instance together with what its event handlers keep between
    events: whether [options.fetchSuggestions] was given, [fetchTimeout],
    the timers it has set that have neither fired nor been cleared (each
    with the position its callback captured), the next identity
    [setTimeout] hands out, and the callbacks suspended at
    [await this.fetchSuggestions()] (again with their position). *)
Record Controller := mkController {
  instance : TagIt;
  hasFetchSuggestions : bool;
  fetchTimeout : option timerId;
  timers : gmap timerId Coordinates;
  nextTimerId : timerId;
  awaiting : list Coordinates
}.

(** [clearTimeout(this.fetchTimeout)] guarded by [if (this.fetchTimeout)] *)
Definition clearFetchTimeout (c : Controller) : gmap timerId Coordinates :=
  match fetchTimeout c with
  | Some id => delete id (timers c)
  | None => timers c
  end.

(** [onKeyUp(e)].  [geometry] is what [getCaretCoordinates(this.target)]
    does for this call (it returns the position and may rewrite the
    document) and [lineHeight] what [getLineHeight(this.target)] returns;
    both calls are taken to return.  Timer identities are handed out in
    increasing order. *)
Definition onKeyUp (c : Controller)
    (geometry : Document -> Document * Coordinates) (lineHeight : Q) : Controller :=
  let this := instance c in
  let this :=
    match firstRange (selection (document this)) with
    | Some range => withSavedRange this (Some range)
    | None => this
    end in
  if isTriggerActive this then
    let '(doc, position) := geometry (document this) in
    let this := withDocument this doc in
    if hasFetchSuggestions c then
      let id := nextTimerId c in
      mkController this (hasFetchSuggestions c) (Some id)
        (<[id := position]> (clearFetchTimeout c)) (Pos.succ id) (awaiting c)
    else
      mkController (showDropdown this position lineHeight)
        (hasFetchSuggestions c) (fetchTimeout c) (timers c) (nextTimerId c)
        (awaiting c)
  else
    mkController (hideDropdown this) (hasFetchSuggestions c)
      (match fetchTimeout c with Some _ => None | None => None end)
      (clearFetchTimeout c) (nextTimerId c) (awaiting c).

(** The timer [id] fires: its callback starts and suspends at
    [await this.fetchSuggestions()]. *)
Definition onTimer (c : Controller) (id : timerId) : Controller :=
  match timers c !! id with
  | Some position =>
      mkController (instance c) (hasFetchSuggestions c) (fetchTimeout c)
        (delete id (timers c)) (nextTimerId c) (awaiting c ++ [position])
  | None => c
  end.

(** The [k]-th suspended callback resumes with the array [result], the
    store being [h] by then: [this.suggestions = asyncSuggestions;
    this.showDropdown(position)]. *)
Definition onFetchResolved (c : Controller) (k : nat) (h : Store)
    (result : list loc) (lineHeight : Q) : Controller :=
  match awaiting c !! k with
  | Some position =>
      mkController
        (showDropdown (withSuggestions (withStore (instance c) h) result)
           position lineHeight)
        (hasFetchSuggestions c) (fetchTimeout c) (timers c) (nextTimerId c)
        (delete k (awaiting c))
  | None => c
  end.

(** The [k]-th suspended callback resumes with a rejection: the error is
    logged and nothing else happens. *)
Definition onFetchRejected (c : Controller) (k : nat) : Controller :=
  mkController (instance c) (hasFetchSuggestions c) (fetchTimeout c)
    (timers c) (nextTimerId c) (delete k (awaiting c)).

(** [onOutsideClick(e)]; [inside] is [this.dropdown.contains(e.target)]. *)
Definition onOutsideClick (c : Controller) (inside : bool) : Controller :=
  if inside then c
  else mkController (hideDropdown (instance c)) (hasFetchSuggestions c)
         (fetchTimeout c) (timers c) (nextTimerId c) (awaiting c).

(** What can happen to a controller: its handlers run, or the user edits
    the text or moves the caret. *)
Inductive Event :=
  | KeyUp (geometry : Document -> Document * Coordinates) (lineHeight : Q)
  | TimerFired (id : timerId)
  | FetchResolved (k : nat) (h : Store) (result : list loc) (lineHeight : Q)
  | FetchRejected (k : nat)
  | OutsideClick (inside : bool)
  | UserEdit (t : Target) (d : Document).

Definition handle (c : Controller) (e : Event) : Controller :=
  match e with
  | KeyUp geometry lineHeight => onKeyUp c geometry lineHeight
  | TimerFired id => onTimer c id
  | FetchResolved k h result lineHeight => onFetchResolved c k h result lineHeight
  | FetchRejected k => onFetchRejected c k
  | OutsideClick inside => onOutsideClick c inside
  | UserEdit t d =>
      mkController (withTarget (withDocument (instance c) d) t)
        (hasFetchSuggestions c) (fetchTimeout c) (timers c) (nextTimerId c)
        (awaiting c)
  end.

(** A controller right after [new TagIt(target, options)]: no timer has
    been set yet. *)
Definition freshController (this : TagIt) (fetch : bool) : Controller :=
  mkController this fetch None ∅ 1%positive [].


(** ** Listeners ([attachEvents], [destroy]) *)

(** Identity of a function object. *)
Definition funId := nat.

(** The part of the page [attachEvents], [createDropdown] and [destroy]
    act on: the [keyup] listeners of the target, the [click] listeners of
    the document, the children of [document.body], and the number of
    function objects created so far. *)
Record Page := mkPage {
  keyupListeners : list funId;
  clickListeners : list funId;
  bodyChildren : list node;
  functionCount : funId
}.

(** [this.onKeyUp.bind(this)] or [this.onOutsideClick.bind(this)]: every
    call creates a new function object. *)
Definition bind (p : Page) : funId * Page :=
  (functionCount p,
   mkPage (keyupListeners p) (clickListeners p) (bodyChildren p) (S (functionCount p))).

(** [addEventListener(type, f)] on a listener list: a function that is
    already listed is not added again. *)
Definition addEventListener (f : funId) (listeners : list funId) : list funId :=
  if bool_decide (f ∈ listeners) then listeners else listeners ++ [f].

(** [removeEventListener(type, f)] on a listener list: the listener that
    is this very function object is removed, if there is one. *)
Definition removeEventListener (f : funId) (listeners : list funId) : list funId :=
  List.filter (fun g => negb (Nat.eqb g f)) listeners.

(** [createDropdown()]: [document.body.appendChild(dropdown)] *)
Definition createDropdown (p : Page) (dropdownElement : node) : Page :=
  mkPage (keyupListeners p) (clickListeners p)
    (removeChild dropdownElement (bodyChildren p) ++ [dropdownElement])
    (functionCount p).

(** [attachEvents()] *)
Definition attachEvents (p : Page) : Page :=
  let '(onKeyUpBound, p) := bind p in
  let p := mkPage (addEventListener onKeyUpBound (keyupListeners p))
             (clickListeners p) (bodyChildren p) (functionCount p) in
  let '(onOutsideClickBound, p) := bind p in
  mkPage (keyupListeners p) (addEventListener onOutsideClickBound (clickListeners p))
    (bodyChildren p) (functionCount p).

(** The page effects of the constructor: [createDropdown()] followed by
    [attachEvents()]. *)
Definition construct (p : Page) (dropdownElement : node) : Page :=
  attachEvents (createDropdown p dropdownElement).

(** [destroy()].  [document.body.removeChild] throws a [NotFoundError]
    when its argument is not a child of the body. *)
Definition destroy (p : Page) (dropdownElement : node) : completion Page :=
  let '(onKeyUpBound, p) := bind p in
  let p := mkPage (removeEventListener onKeyUpBound (keyupListeners p))
             (clickListeners p) (bodyChildren p) (functionCount p) in
  let '(onOutsideClickBound, p) := bind p in
  let p := mkPage (keyupListeners p)
             (removeEventListener onOutsideClickBound (clickListeners p))
             (bodyChildren p) (functionCount p) in
  if bool_decide (dropdownElement ∈ bodyChildren p) then
    Normal (mkPage (keyupListeners p) (clickListeners p)
              (removeChild dropdownElement (bodyChildren p)) (functionCount p))
  else Throw (str "NotFoundError").

(** Every listed listener is a function object that exists. *)
Definition listenersExist (p : Page) : Prop :=
  forall f, f ∈ keyupListeners p ++ clickListeners p -> (f < functionCount p)%nat.

(** Every pending timer of [c] is the one recorded in [fetchTimeout], and
    was handed out before [nextTimerId]. *)
Definition onlyRecordedTimer (c : Controller) : Prop :=
  forall id position,
    timers c !! id = Some position ->
    fetchTimeout c = Some id /\ (id < nextTimerId c)%positive.


(** An editable region with a text node but no selection. *)
Definition withoutSelection : TagIt :=
  withDocument (onEditable (str "hi @bo") 6)
    (mkDocument (nodes (document (onEditable (str "hi @bo") 6))) None).

(** ** Facts about the string builtins *)

Lemma strlen_nonneg s : 0 <= strlen s.
Proof. unfold strlen. lia. Qed.

Lemma strlen_app s t : strlen (s ++ t) = strlen s + strlen t.
Proof. unfold strlen. rewrite length_app. lia. Qed.

Lemma occursAt_range q s i : occursAt q s i -> 0 <= i /\ i + strlen q <= strlen s.
Proof.
  intros (pre & post & -> & <-). rewrite !strlen_app.
  pose proof (strlen_nonneg pre). pose proof (strlen_nonneg post). lia.
Qed.

Lemma startsWith_prefix s p :
  startsWith s p = true <-> exists rest, s = p ++ rest.
Proof.
  revert s. induction p as [|c p IH]; intros s; simpl.
  - split; [intros _; by exists s | done].
  - destruct s as [|d s].
    + split; [done | intros [rest Hrest]; discriminate].
    + rewrite andb_true_iff, N.eqb_eq, IH. split.
      * intros [-> [rest ->]]. by exists rest.
      * intros [rest Hrest]. injection Hrest as -> ->. eauto.
Qed.

Lemma startsWith_drop s q (n : nat) :
  (n <= length s)%nat ->
  startsWith (drop n s) q = true <-> occursAt q s (Z.of_nat n).
Proof.
  intros Hn. rewrite startsWith_prefix. split.
  - intros [rest Hrest]. exists (take n s), rest. split.
    + by rewrite <- Hrest, take_drop.
    + unfold strlen. rewrite length_take. lia.
  - intros (pre & post & -> & Hlen). exists post.
    unfold strlen in Hlen. apply Nat2Z.inj in Hlen. subst n.
    by rewrite drop_app_length.
Qed.

Lemma occursAt_zero q s : occursAt q s 0 <-> startsWith s q = true.
Proof.
  rewrite <- (startsWith_drop s q 0) by lia. by rewrite drop_0.
Qed.

Lemma occursAt_cons q c s j :
  occursAt q (c :: s) j <-> (j = 0 /\ startsWith (c :: s) q = true) \/ occursAt q s (j - 1).
Proof.
  split.
  - intros (pre & post & Heq & Hlen). destruct pre as [|d pre].
    + left. unfold strlen in Hlen; simpl in Hlen. split; [lia|].
      apply occursAt_zero. exists [], post. by rewrite Heq.
    + right. simpl in Heq. injection Heq as -> ->. exists pre, post.
      split; [done|]. unfold strlen in *. simpl in Hlen. lia.
  - intros [[-> Hs] | (pre & post & -> & Hlen)].
    + by apply occursAt_zero.
    + exists (c :: pre), post. split; [done|].
      unfold strlen in *. simpl. lia.
Qed.

Lemma indexOfFrom_spec s q k :
  0 <= k ->
  (indexOfFrom s q k = -1 /\ ~ isSubstringOf q s) \/
  (exists i, indexOfFrom s q k = k + i /\ firstOccurrence q s i).
Proof.
  revert k. induction s as [|c s IH]; intros k Hk; simpl.
  - destruct (startsWith [] q) eqn:Hs.
    + right. exists 0. split; [lia|]. split; [by apply occursAt_zero|].
      intros j Hj. apply occursAt_range in Hj. lia.
    + left. split; [done|]. intros (i & pre & post & Heq & _).
      destruct pre; [|done]. destruct q; [done|done].
  - destruct (startsWith (c :: s) q) eqn:Hs.
    + right. exists 0. split; [lia|]. split; [by apply occursAt_zero|].
      intros j Hj. apply occursAt_range in Hj. lia.
    + destruct (IH (k + 1)) as [[Hr Hno] | (i & Hr & Hocc & Hmin)]; [lia| |].
      * left. split; [done|]. intros [j Hj]. apply occursAt_cons in Hj.
        destruct Hj as [[_ Hj] | Hj]; [congruence|]. apply Hno. by exists (j - 1).
      * right. exists (i + 1). split; [lia|]. split.
        -- apply occursAt_cons. right. by replace (i + 1 - 1) with i by lia.
        -- intros j Hj. apply occursAt_cons in Hj.
           destruct Hj as [[_ Hj] | Hj]; [congruence|].
           apply Hmin in Hj. lia.
Qed.

Lemma indexOf_spec s q :
  (indexOf s q = -1 /\ ~ isSubstringOf q s) \/ firstOccurrence q s (indexOf s q).
Proof.
  unfold indexOf. destruct (indexOfFrom_spec s q 0) as [H | (i & Hr & H)]; [lia| |].
  - by left.
  - right. by rewrite Hr.
Qed.

Lemma firstOccurrence_unique q s i j :
  firstOccurrence q s i -> firstOccurrence q s j -> i = j.
Proof.
  intros [Hi Hmi] [Hj Hmj]. apply Hmi in Hj. apply Hmj in Hi. lia.
Qed.

Lemma indexOf_first q s i : firstOccurrence q s i -> indexOf s q = i.
Proof.
  intros Hi. destruct (indexOf_spec s q) as [[_ Hno] | H].
  - destruct Hno. exists i. apply Hi.
  - eapply firstOccurrence_unique; eauto.
Qed.

Lemma indexOf_absent q s : indexOf s q = -1 <-> ~ isSubstringOf q s.
Proof.
  split.
  - intros Hr. destruct (indexOf_spec s q) as [[_ Hno] | [Hocc _]]; [done|].
    apply occursAt_range in Hocc. lia.
  - intros Hno. destruct (indexOf_spec s q) as [[Hr _] | [Hocc _]]; [done|].
    destruct Hno. by exists (indexOf s q).
Qed.

Lemma lastIndexOfDown_spec s q (n : nat) :
  (n <= length s)%nat ->
  (lastIndexOfDown s q n = -1 /\
   forall j, occursAt q s j -> j <= Z.of_nat n -> False) \/
  lastOccurrenceUpTo q s (Z.of_nat n) (lastIndexOfDown s q n).
Proof.
  induction n as [|n IH]; intros Hn; simpl.
  - destruct (startsWith (drop 0 s) q) eqn:Hs.
    + right. apply startsWith_drop in Hs; [|lia].
      split; [done|]. split; [lia|]. intros j _ Hj. lia.
    + left. split; [done|]. intros j Hocc Hj.
      pose proof (occursAt_range _ _ _ Hocc) as [Hj0 _].
      replace j with (Z.of_nat 0) in Hocc by lia.
      apply startsWith_drop in Hocc; [congruence|lia].
  - destruct (startsWith (drop (S n) s) q) eqn:Hs.
    + right. apply startsWith_drop in Hs; [|lia].
      split; [done|]. split; [lia|]. intros j _ Hj. lia.
    + assert (Hnot : forall j, occursAt q s j -> j <= Z.of_nat (S n) -> j <= Z.of_nat n).
      { intros j Hocc Hj. destruct (decide (j = Z.of_nat (S n))) as [->|]; [|lia].
        apply startsWith_drop in Hocc; [congruence|lia]. }
      destruct IH as [[Hr Hno] | (Hocc & Hle & Hmax)]; [lia| |].
      * left. split; [done|]. intros j Hocc Hj. eapply Hno; eauto.
      * right. split; [done|]. split; [lia|]. intros j Hj Hjn. auto.
Qed.

Lemma lastIndexOf_spec s q pos :
  (lastIndexOf s q pos = -1 /\
   forall j, occursAt q s j -> j <= Z.max pos 0 -> False) \/
  lastOccurrenceUpTo q s (Z.max pos 0) (lastIndexOf s q pos).
Proof.
  unfold lastIndexOf.
  pose proof (strlen_nonneg s) as Hlen.
  assert (Hc : 0 <= clamp (strlen s) pos <= strlen s) by (unfold clamp; lia).
  assert (Hup : forall j, occursAt q s j -> j <= Z.max pos 0 ->
                          j <= Z.of_nat (Z.to_nat (clamp (strlen s) pos))).
  { intros j Hocc Hj. apply occursAt_range in Hocc.
    pose proof (strlen_nonneg q). unfold clamp in *. lia. }
  destruct (lastIndexOfDown_spec s q (Z.to_nat (clamp (strlen s) pos)))
    as [[Hr Hno] | (Hocc & Hle & Hmax)].
  - unfold strlen in *. lia.
  - left. split; [done|]. intros j Hocc Hj. eapply Hno; eauto.
  - right. split; [done|]. split.
    + unfold clamp in *. lia.
    + intros j Hj Hjp. auto.
Qed.

Lemma lastIndexOf_range s q pos :
  lastIndexOf s q pos <> -1 ->
  0 <= lastIndexOf s q pos <= strlen s.
Proof.
  intros Hne. destruct (lastIndexOf_spec s q pos) as [[Hr _] | [Hocc _]]; [done|].
  apply occursAt_range in Hocc. pose proof (strlen_nonneg q). lia.
Qed.

Lemma lastIndexOf_absent s q pos :
  lastIndexOf s q pos = -1 <->
  forall j, occursAt q s j -> j <= Z.max pos 0 -> False.
Proof.
  split.
  - intros Hr. destruct (lastIndexOf_spec s q pos) as [[_ Hno] | [Hocc _]]; [done|].
    apply occursAt_range in Hocc. lia.
  - intros Hno. destruct (lastIndexOf_spec s q pos) as [[Hr _] | (Hocc & Hle & _)]; [done|].
    destruct (Hno _ Hocc Hle).
Qed.

Lemma lastIndexOf_last s q pos i :
  lastOccurrenceUpTo q s (Z.max pos 0) i -> lastIndexOf s q pos = i.
Proof.
  intros (Hocc & Hle & Hmax).
  destruct (lastIndexOf_spec s q pos) as [[_ Hno] | (Hocc' & Hle' & Hmax')].
  - destruct (Hno _ Hocc Hle).
  - specialize (Hmax _ Hocc' Hle'). specialize (Hmax' _ Hocc Hle). lia.
Qed.

Lemma substring_prefix_length s i :
  0 <= i <= strlen s -> strlen (substring s 0 i) = i.
Proof.
  intros Hi. unfold substring, clamp, strlen in *.
  rewrite length_take, length_drop. lia.
Qed.

Lemma substring_app_middle pre mid post :
  substring (pre ++ mid ++ post) (strlen pre) (strlen pre + strlen mid) = mid.
Proof.
  unfold substring, clamp. rewrite !strlen_app.
  pose proof (strlen_nonneg pre). pose proof (strlen_nonneg mid).
  pose proof (strlen_nonneg post).
  rewrite (Z.max_l (strlen pre) 0), (Z.max_l (strlen pre + strlen mid) 0) by lia.
  rewrite (Z.min_l (strlen pre)), (Z.min_l (strlen pre + strlen mid)) by lia.
  rewrite Z.min_l, Z.max_r by lia.
  replace (strlen pre + strlen mid - strlen pre) with (strlen mid) by lia.
  unfold strlen. rewrite !Nat2Z.id, drop_app_length. by rewrite take_app_length.
Qed.

Lemma substring_app_prefix pre post :
  substring (pre ++ post) 0 (strlen pre) = pre.
Proof.
  pose proof (substring_app_middle [] pre post) as H. simpl in H.
  unfold strlen at 1 in H. simpl in H. by rewrite Z.add_0_l in H.
Qed.

Lemma substringFrom_app_suffix pre post :
  substringFrom (pre ++ post) (strlen pre) = post.
Proof.
  unfold substringFrom.
  pose proof (substring_app_middle pre post []) as H.
  rewrite app_nil_r in H. rewrite strlen_app. done.
Qed.

Lemma indexOf_found s q :
  indexOf s q <> -1 -> firstOccurrence q s (indexOf s q).
Proof.
  intros Hne. by destruct (indexOf_spec s q) as [[Hr _] | H].
Qed.

Lemma lastIndexOf_found s q pos :
  lastIndexOf s q pos <> -1 ->
  lastOccurrenceUpTo q s (Z.max pos 0) (lastIndexOf s q pos).
Proof.
  intros Hne. by destruct (lastIndexOf_spec s q pos) as [[Hr _] | H].
Qed.

(** ** Facts about the arithmetic of scores *)

Lemma Math_min_spec a b : (Math_min a b == Qmin a b)%Q.
Proof.
  unfold Math_min. destruct (Qle_bool a b) eqn:H.
  - apply Qle_bool_iff in H. symmetry. by apply Q.min_l.
  - assert (b <= a)%Q.
    { destruct (Qlt_le_dec b a) as [Hlt|Hle]; [by apply Qlt_le_weak|].
      apply Qle_bool_iff in Hle. congruence. }
    symmetry. by apply Q.min_r.
Qed.

Lemma Math_max_spec a b : (Math_max a b == Qmax a b)%Q.
Proof.
  unfold Math_max. destruct (Qle_bool a b) eqn:H.
  - apply Qle_bool_iff in H. symmetry. by apply Q.max_r.
  - assert (b <= a)%Q.
    { destruct (Qlt_le_dec b a) as [Hlt|Hle]; [by apply Qlt_le_weak|].
      apply Qle_bool_iff in Hle. congruence. }
    symmetry. by apply Q.max_l.
Qed.

Lemma clamp_unit_bounds x : (0 <= Math_max 0 (Math_min 1 x) <= 1)%Q.
Proof.
  rewrite Math_max_spec, Math_min_spec. split.
  - apply Q.le_max_l.
  - apply Q.max_lub; [done|]. apply Q.le_min_l.
Qed.

Lemma clamp_unit_id x : (0 <= x <= 1)%Q -> (Math_max 0 (Math_min 1 x) == x)%Q.
Proof.
  intros [H0 H1]. rewrite Math_max_spec, Math_min_spec.
  rewrite (Q.min_r 1 x) by done. by apply Q.max_r.
Qed.

Lemma position_score_bounds i len :
  0 <= i < len ->
  (0 < 1 - inject_Z i / inject_Z len <= 1)%Q.
Proof.
  intros [Hi Hlen].
  assert (Hpos : (0 < inject_Z len)%Q).
  { change 0%Q with (inject_Z 0). rewrite <- Zlt_Qlt. lia. }
  assert (Hlo : (0 <= inject_Z i / inject_Z len)%Q).
  { apply Qle_shift_div_l; [done|]. rewrite Qmult_0_l.
    change 0%Q with (inject_Z 0). rewrite <- Zle_Qle. lia. }
  assert (Hhi : (inject_Z i / inject_Z len < 1)%Q).
  { apply Qlt_shift_div_r; [done|]. rewrite Qmult_1_l.
    rewrite <- Zlt_Qlt. lia. }
  generalize dependent (inject_Z i / inject_Z len)%Q. clear.
  intros x Hlo Hhi. lra.
Qed.

Lemma isEmpty_true s : isEmpty s = true <-> s = [].
Proof. by destruct s. Qed.

Lemma isEmpty_false s : isEmpty s = false <-> s <> [].
Proof. by destruct s. Qed.

(** ** Scoring engine: match score *)

Lemma getMatchScore_unfold suggestionKey query :
  toLowerCase query <> [] ->
  toLowerCase suggestionKey <> toLowerCase query ->
  indexOf (toLowerCase suggestionKey) (toLowerCase query) <> -1 ->
  getMatchScore suggestionKey query =
  Math_max 0 (Math_min 1
    (1 - inject_Z (indexOf (toLowerCase suggestionKey) (toLowerCase query))
         / inject_Z (strlen (toLowerCase suggestionKey)))%Q).
Proof.
  intros Hq Hne Hidx. unfold getMatchScore.
  apply isEmpty_false in Hq. rewrite Hq.
  rewrite bool_decide_eq_false_2 by done.
  apply Z.eqb_neq in Hidx. by rewrite Hidx.
Qed.

Lemma getMatchScore_absent suggestionKey query :
  ~ isSubstringOf (toLowerCase query) (toLowerCase suggestionKey) ->
  getMatchScore suggestionKey query = 0%Q.
Proof.
  intros Hno. unfold getMatchScore.
  destruct (isEmpty (toLowerCase query)); [done|].
  case_bool_decide as Heq.
  - destruct Hno. exists 0, [], []. rewrite Heq. by rewrite app_nil_r.
  - apply indexOf_absent in Hno. by rewrite Hno.
Qed.

Lemma firstOccurrence_position q s i :
  q <> [] -> firstOccurrence q s i -> 0 <= i < strlen s.
Proof.
  intros Hq [Hocc _]. apply occursAt_range in Hocc.
  assert (0 < strlen q); [|lia].
  destruct q; [done|]. unfold strlen. simpl. lia.
Qed.

Lemma getMatchScore_bounds suggestionKey query :
  (0 <= getMatchScore suggestionKey query <= 1)%Q.
Proof.
  unfold getMatchScore.
  destruct (isEmpty (toLowerCase query)); [done|].
  case_bool_decide; [done|].
  destruct (_ =? -1); [done|]. apply clamp_unit_bounds.
Qed.

(** C1. [getMatchScore(key, query)] follows the case list of its
    description, read in order: 0 for an empty query; otherwise 1 when key
    and query are equal ignoring case; otherwise 0 when the lower-cased
    query is not a substring of the lower-cased key; otherwise one minus
    the first index of the lower-cased query in the lower-cased key
    divided by the length of the lower-cased key, clamped into [0,1] (the
    clamp leaves that value as it is).  In every case the result lies in
    [0,1]. *)
Theorem getMatchScore_cases (suggestionKey query : jsstring) :
  let key := toLowerCase suggestionKey in
  let q := toLowerCase query in
  (query = [] -> getMatchScore suggestionKey query = 0%Q) /\
  (query <> [] -> key = q -> getMatchScore suggestionKey query = 1%Q) /\
  (query <> [] -> ~ isSubstringOf q key ->
     getMatchScore suggestionKey query = 0%Q) /\
  (query <> [] -> key <> q ->
     forall i, firstOccurrence q key i ->
       (getMatchScore suggestionKey query ==
          Qmax 0 (Qmin 1 (1 - inject_Z i / inject_Z (strlen key))))%Q /\
       (getMatchScore suggestionKey query ==
          1 - inject_Z i / inject_Z (strlen key))%Q) /\
  (0 <= getMatchScore suggestionKey query <= 1)%Q.
Proof.
  intros k q. subst k q.
  assert (Hne : query <> [] -> toLowerCase query <> [])
    by (intros Hq; by rewrite toLowerCase_empty).
  split; [|split; [|split; [|split]]].
  - intros Hq. apply toLowerCase_empty in Hq.
    unfold getMatchScore. by rewrite Hq.
  - intros Hq%Hne Heq. unfold getMatchScore.
    apply isEmpty_false in Hq. rewrite Hq.
    by rewrite bool_decide_eq_true_2.
  - intros _. apply getMatchScore_absent.
  - intros Hq%Hne Hkey i Hfirst.
    pose proof (indexOf_first _ _ _ Hfirst) as Hidx.
    pose proof (firstOccurrence_position _ _ _ Hq Hfirst) as Hi.
    rewrite getMatchScore_unfold; [|done|done|lia].
    rewrite Hidx. split.
    + by rewrite Math_max_spec, Math_min_spec.
    + apply clamp_unit_id.
      pose proof (position_score_bounds _ _ Hi) as [Hlo Hhi].
      split; [by apply Qlt_le_weak | done].
  - apply getMatchScore_bounds.
Qed.

(** C5, as amended.  For a non-empty query the score is 0 exactly when
    the lower-cased query is not a substring of the lower-cased key; for
    the empty query the score is 0 although the empty string occurs in
    every key. *)
Theorem getMatchScore_zero_iff (suggestionKey query : jsstring) :
  (query <> [] ->
     (getMatchScore suggestionKey query == 0)%Q <->
     ~ isSubstringOf (toLowerCase query) (toLowerCase suggestionKey)) /\
  (query = [] ->
     getMatchScore suggestionKey query = 0%Q /\
     isSubstringOf (toLowerCase query) (toLowerCase suggestionKey)).
Proof.
  split.
  - intros Hq. split; [|intros Hno; by rewrite getMatchScore_absent].
    intros Hzero Hsub.
    assert (Hq' : toLowerCase query <> []) by (by rewrite toLowerCase_empty).
    destruct (decide (toLowerCase suggestionKey = toLowerCase query)) as [Heq|Hne].
    + unfold getMatchScore in Hzero. apply isEmpty_false in Hq'.
      rewrite Hq', bool_decide_eq_true_2 in Hzero by done. discriminate.
    + destruct (indexOf_spec (toLowerCase suggestionKey) (toLowerCase query))
        as [[_ Hno] | Hfirst]; [done|].
      pose proof (firstOccurrence_position _ _ _ Hq' Hfirst) as Hi.
      rewrite getMatchScore_unfold in Hzero; [|done|done|lia].
      pose proof (position_score_bounds _ _ Hi) as [Hlo Hhi].
      rewrite clamp_unit_id in Hzero; [|split; [by apply Qlt_le_weak | done]].
      rewrite Hzero in Hlo. by apply Qlt_irrefl in Hlo.
  - intros ->. split.
    + unfold getMatchScore.
      by rewrite (proj2 (toLowerCase_empty []) eq_refl).
    + rewrite (proj2 (toLowerCase_empty []) eq_refl).
      exists 0, [], (toLowerCase suggestionKey). done.
Qed.

(** ** Scoring engine: ranking *)

Lemma sortInsert_Permutation {A} (cmp : A -> A -> Q) x l :
  sortInsert cmp x l ≡ₚ x :: l.
Proof.
  induction l as [|y l IH]; simpl; [done|].
  destruct (Qle_bool (cmp x y) 0); [done|].
  rewrite IH. apply Permutation_swap.
Qed.

Lemma sortBy_Permutation {A} (cmp : A -> A -> Q) l : sortBy cmp l ≡ₚ l.
Proof.
  induction l as [|x l IH]; simpl; [done|].
  rewrite sortInsert_Permutation. by rewrite IH.
Qed.

Section SortByKey.
Context {A : Type} (cmp : A -> A -> Q) (R : A -> A -> Prop).
Variable inRange : A -> Prop.
Hypothesis R_le : forall x y, inRange x -> inRange y ->
  ((cmp x y <= 0)%Q -> R x y) /\ (~ (cmp x y <= 0)%Q -> R y x).
Hypothesis R_trans : forall x y z, R x y -> R y z -> R x z.

Lemma sortInsert_sorted x l :
  inRange x -> Forall inRange l ->
  StronglySorted R l -> StronglySorted R (sortInsert cmp x l).
Proof.
  intros Hx Hl Hs. induction Hs as [|y l Hs IH Hy]; simpl.
  - repeat constructor.
  - apply Forall_cons in Hl as [Hy' Hl].
    destruct (R_le x y Hx Hy') as [Hle Hgt].
    destruct (Qle_bool (cmp x y) 0) eqn:Hc.
    + apply Qle_bool_iff in Hc. constructor; [by constructor|].
      constructor; [auto|]. eapply Forall_impl; [exact Hy|].
      intros z Hz. eapply R_trans; eauto.
    + assert (Hyx : R y x).
      { apply Hgt. intros Hc'. apply Qle_bool_iff in Hc'. congruence. }
      constructor; [auto|].
      rewrite sortInsert_Permutation. by constructor.
Qed.

Lemma sortBy_sorted l :
  Forall inRange l -> StronglySorted R (sortBy cmp l).
Proof.
  induction l as [|x l IH]; intros Hl; simpl; [constructor|].
  apply Forall_cons in Hl as [Hx Hl].
  apply sortInsert_sorted; [done| |auto].
  by rewrite sortBy_Permutation.
Qed.
End SortByKey.

Lemma attachScore_idemp query item :
  attachScore query (attachScore query item) = attachScore query item.
Proof. done. Qed.

Lemma attachScores_lookup query suggestions (h : Store) l :
  attachScores query h suggestions !! l =
  if decide (l ∈ suggestions) then attachScore query <$> h !! l else h !! l.
Proof.
  unfold attachScores. revert h.
  induction suggestions as [|a rest IH]; intros h; simpl.
  - destruct (decide (l ∈ [])) as [Hin|_]; [|done]. by apply elem_of_nil in Hin.
  - rewrite IH, lookup_alter.
    destruct (decide (l ∈ rest)) as [Hrest|Hrest];
      destruct (decide (a = l)) as [->|Hne];
      destruct (decide (_ ∈ _ :: rest)) as [Hin|Hin]; try done.
    + destruct (h !! l); simpl; [by rewrite attachScore_idemp | done].
    + destruct Hin. by right.
    + destruct Hin. by right.
    + destruct Hin. by left.
    + apply elem_of_cons in Hin as [?|?]; done.
Qed.

Lemma reachesMinScore_true h minScore l :
  reachesMinScore h minScore l = true <->
  exists sc, matchScoreOf h l = Some sc /\ (minScore <= sc)%Q.
Proof.
  unfold reachesMinScore. destruct (matchScoreOf h l) as [sc|].
  - rewrite Qle_bool_iff. split; [by exists sc|]. by intros (? & [= <-] & ?).
  - split; [done|]. by intros (? & ? & _).
Qed.

Lemma scoredNotBelow_trans h a b c :
  scoredNotBelow h a b -> scoredNotBelow h b c -> scoredNotBelow h a c.
Proof.
  intros (sa & sb & Ha & Hb & Hab) (sb' & sc & Hb' & Hc & Hbc).
  rewrite Hb in Hb'. injection Hb' as <-.
  exists sa, sc. repeat split; [done|done|]. by apply Qle_trans with sb.
Qed.

Lemma byScoreDescending_order h a b :
  is_Some (matchScoreOf h a) -> is_Some (matchScoreOf h b) ->
  ((byScoreDescending h a b <= 0)%Q -> scoredNotBelow h a b) /\
  (~ (byScoreDescending h a b <= 0)%Q -> scoredNotBelow h b a).
Proof.
  intros [sa Ha] [sb Hb]. unfold byScoreDescending, scoredNotBelow.
  rewrite Ha, Hb. split; intros Hc.
  - exists sa, sb. repeat split; [done..|]. lra.
  - exists sb, sa. repeat split; [done..|]. lra.
Qed.

Lemma sortAndFilterSuggestions_unfold h suggestions query minScore :
  query <> [] ->
  sortAndFilterSuggestions h suggestions query minScore =
  (attachScores query h suggestions,
   sortBy (byScoreDescending (attachScores query h suggestions))
     (List.filter (reachesMinScore (attachScores query h suggestions) minScore)
        suggestions)).
Proof.
  intros Hq. unfold sortAndFilterSuggestions.
  apply isEmpty_false in Hq. by rewrite Hq.
Qed.

(** C2. For a non-empty query, [sortAndFilterSuggestions] attaches
    [getMatchScore(candidate.key, query)] to every candidate of the input
    (and touches no other object), returns exactly the input candidates
    whose attached score is at least the threshold, and returns them in
    descending order of score. *)
Theorem sortAndFilterSuggestions_ranked
    (h : Store) (suggestions : list loc) (query : jsstring) (minScore : Q) :
  query <> [] ->
  let h' := fst (sortAndFilterSuggestions h suggestions query minScore) in
  let out := snd (sortAndFilterSuggestions h suggestions query minScore) in
  (forall l item, l ∈ suggestions -> h !! l = Some item ->
     h' !! l = Some (mkSuggestion (display item) (key item)
                       (Some (getMatchScore (key item) query)))) /\
  (forall l, l ∉ suggestions -> h' !! l = h !! l) /\
  (forall l, l ∈ out ->
     l ∈ suggestions /\
     exists sc, matchScoreOf h' l = Some sc /\ (minScore <= sc)%Q) /\
  out ≡ₚ List.filter (reachesMinScore h' minScore) suggestions /\
  StronglySorted (scoredNotBelow h') out.
Proof.
  intros Hq h' out. subst h' out.
  rewrite sortAndFilterSuggestions_unfold by done. simpl.
  set (h' := attachScores query h suggestions).
  assert (Hfilter : forall l,
    l ∈ List.filter (reachesMinScore h' minScore) suggestions ->
    l ∈ suggestions /\
    exists sc, matchScoreOf h' l = Some sc /\ (minScore <= sc)%Q).
  { intros l Hl. apply list_elem_of_In, filter_In in Hl as [Hin Hsc].
    split; [by apply list_elem_of_In|]. by apply reachesMinScore_true. }
  repeat split.
  - intros l item Hin Hl. subst h'. rewrite attachScores_lookup.
    rewrite decide_True by done. by rewrite Hl.
  - intros l Hin. subst h'. rewrite attachScores_lookup.
    by rewrite decide_False by done.
  - apply Hfilter. by rewrite <- (sortBy_Permutation (byScoreDescending h')).
  - apply Hfilter. by rewrite <- (sortBy_Permutation (byScoreDescending h')).
  - apply sortBy_Permutation.
  - apply sortBy_sorted with (inRange := fun l => is_Some (matchScoreOf h' l)).
    + intros x y Hx Hy. by apply byScoreDescending_order.
    + apply scoredNotBelow_trans.
    + apply Forall_forall. intros l Hl.
      destruct (Hfilter l Hl) as (_ & sc & Hsc & _). by exists sc.
Qed.

(** C6. With an empty query [sortAndFilterSuggestions] returns the array
    it was given, whatever the threshold: same elements in the same order,
    nothing filtered, nothing sorted, and every suggestion object (in
    particular every [matchScore]) is left as it was. *)
Theorem sortAndFilterSuggestions_empty_query
    (h : Store) (suggestions : list loc) (minScore : Q) :
  snd (sortAndFilterSuggestions h suggestions [] minScore) = suggestions /\
  fst (sortAndFilterSuggestions h suggestions [] minScore) = h /\
  (forall l, matchScoreOf
               (fst (sortAndFilterSuggestions h suggestions [] minScore)) l
             = matchScoreOf h l).
Proof. by repeat split. Qed.

(** ** Flat-buffer splice *)

Lemma substring_take s i : 0 <= i -> substring s 0 i = take (Z.to_nat i) s.
Proof.
  intros Hi. unfold substring, clamp, strlen.
  match goal with
  | |- take ?a (drop ?b s) = _ =>
      replace b with 0%nat by lia;
      replace a with (Nat.min (Z.to_nat i) (length s)) by lia
  end.
  rewrite drop_0. destruct (Nat.le_ge_cases (Z.to_nat i) (length s)).
  - by rewrite Nat.min_l.
  - rewrite Nat.min_r by done. by rewrite !take_ge by lia.
Qed.

Lemma substringFrom_drop s a : substringFrom s a = drop (Z.to_nat a) s.
Proof.
  unfold substringFrom, substring, clamp, strlen.
  match goal with
  | |- take ?x (drop ?b s) = _ =>
      replace b with (Nat.min (Z.to_nat a) (length s)) by lia;
      replace x with (length s - Nat.min (Z.to_nat a) (length s))%nat by lia
  end.
  rewrite take_ge by (rewrite length_drop; lia).
  destruct (Nat.le_ge_cases (Z.to_nat a) (length s)).
  - by rewrite Nat.min_l.
  - rewrite Nat.min_r by done. by rewrite !drop_ge by lia.
Qed.

(** What [insertTagForTextarea] does once the trigger has been found. *)
Lemma insertTagForTextarea_found this textarea tag :
  let i := lastIndexOf (value textarea) (triggerChar this) (selectionStart textarea) in
  let triggerPart := if keepTrigger this then triggerChar this else [] in
  let caret := i + strlen triggerPart + strlen tag + 1 in
  i <> -1 ->
  insertTagForTextarea this textarea tag =
  mkTextControl
    (take (Z.to_nat i) (value textarea) ++ triggerPart ++ tag ++ [SPACE]
       ++ drop (Z.to_nat (selectionEnd textarea)) (value textarea))
    caret caret.
Proof.
  intros i triggerPart caret Hi.
  pose proof (lastIndexOf_range _ _ _ Hi) as Hrange. fold i in Hrange.
  unfold insertTagForTextarea. fold i. fold triggerPart.
  apply Z.eqb_neq in Hi. rewrite Hi.
  rewrite substring_prefix_length by done.
  rewrite substring_take, substringFrom_drop by lia.
  unfold setSelectionRange. simpl. fold caret.
  assert (Hc : clamp
            (strlen (take (Z.to_nat i) (value textarea) ++ triggerPart ++ tag
                       ++ SPACE :: drop (Z.to_nat (selectionEnd textarea)) (value textarea)))
            caret = caret).
  { unfold clamp, caret. rewrite !strlen_app.
    assert (strlen (take (Z.to_nat i) (value textarea)) = i).
    { unfold strlen in *. rewrite length_take. lia. }
    pose proof (strlen_nonneg triggerPart). pose proof (strlen_nonneg tag).
    change (SPACE :: ?l) with ([SPACE] ++ l). rewrite strlen_app.
    pose proof (strlen_nonneg (drop (Z.to_nat (selectionEnd textarea)) (value textarea))).
    change (strlen [SPACE]) with 1. lia. }
  by rewrite Hc.
Qed.

(** C3. In a flat buffer, with [i] the last occurrence of the trigger at
    or before [selectionStart], inserting tag [X] yields the value
    [value[0, i) + (triggerChar if keepTrigger) + X + " " + value[end, length)],
    and the caret (both ends of the selection) is put right after the
    inserted text and its trailing space, at
    [i + |triggerPart| + |X| + 1]. *)
Theorem insertTagForTextarea_splice
    (this : TagIt) (textarea : TextControl) (tag : jsstring) (i : Z) :
  lastOccurrenceUpTo (triggerChar this) (value textarea) (selectionStart textarea) i ->
  let triggerPart := if keepTrigger this then triggerChar this else [] in
  let inserted := take (Z.to_nat i) (value textarea) ++ triggerPart ++ tag ++ [SPACE] in
  let result := insertTagForTextarea this textarea tag in
  value result =
    inserted ++ drop (Z.to_nat (selectionEnd textarea)) (value textarea) /\
  selectionStart result = i + strlen triggerPart + strlen tag + 1 /\
  selectionEnd result = i + strlen triggerPart + strlen tag + 1 /\
  selectionStart result = strlen inserted.
Proof.
  intros Hlast triggerPart inserted result.
  assert (Hi : lastIndexOf (value textarea) (triggerChar this) (selectionStart textarea) = i).
  { apply lastIndexOf_last. destruct Hlast as (Hocc & Hle & Hmax).
    pose proof (occursAt_range _ _ _ Hocc) as [H0 _].
    by rewrite Z.max_l by lia. }
  destruct Hlast as (Hocc & Hle & _).
  pose proof (occursAt_range _ _ _ Hocc) as [H0 Hlen].
  pose proof (strlen_nonneg (triggerChar this)).
  subst result. rewrite insertTagForTextarea_found by (rewrite Hi; lia).
  rewrite Hi. simpl. fold triggerPart. subst inserted.
  repeat split.
  - by rewrite <- !app_assoc.
  - rewrite !strlen_app. change (strlen [SPACE]) with 1.
    assert (strlen (take (Z.to_nat i) (value textarea)) = i); [|lia].
    unfold strlen in *. rewrite length_take. lia.
Qed.

Lemma occursAt_single c s j : occursAt [c] s j -> s !! Z.to_nat j = Some c.
Proof.
  intros (pre & post & -> & <-). unfold strlen. rewrite Nat2Z.id.
  by apply list_lookup_middle.
Qed.

Lemma occursAt_middle pre q post : occursAt q (pre ++ q ++ post) (strlen pre).
Proof. by exists pre, post. Qed.

(** In [pre ++ c ++ q ++ post], with no [c] in [q] and [post] not
    starting with [c], the last [c] at or before the end of [q] is the
    one in front of [q]. *)
Lemma lastOccurrence_before_query c pre q post :
  c ∉ q -> head post <> Some c ->
  lastOccurrenceUpTo [c] (pre ++ [c] ++ q ++ post)
    (strlen pre + 1 + strlen q) (strlen pre).
Proof.
  intros Hq Hpost. split; [apply occursAt_middle|].
  pose proof (strlen_nonneg q) as Hq0. split; [lia|].
  intros j Hocc Hj.
  destruct (Z.le_gt_cases j (strlen pre)) as [|Hgt]; [done|exfalso].
  pose proof (occursAt_single _ _ _ Hocc) as Hlook.
  unfold strlen in *.
  rewrite lookup_app_r in Hlook by lia.
  rewrite lookup_app_r in Hlook by (simpl; lia).
  change (length [c]) with 1%nat in Hlook.
  destruct (decide (Z.to_nat j - length pre - 1 < length q)%nat) as [Hin|Hout].
  - rewrite lookup_app_l in Hlook by done.
    apply Hq. by eapply list_elem_of_lookup_2.
  - rewrite lookup_app_r in Hlook by lia.
    replace (Z.to_nat j - length pre - 1 - length q)%nat with 0%nat in Hlook by lia.
    apply Hpost. by rewrite head_lookup.
Qed.

(** X19. In an input or textarea, when the text in front of the caret
    ends with [c mid c q], where [c] is the trigger character and [q]
    holds no [c], and the character right behind the caret is not [c],
    the anchor is the second [c]: [getTriggerQuery] returns [q] alone and
    [insertTag] replaces only the span from that [c] to the caret, the
    earlier trigger and [mid] staying where they are. *)
Theorem second_trigger_is_anchor
    (this : TagIt) (c : codeunit) (before mid q post tag : jsstring) :
  triggerChar this = [c] ->
  c ∉ q ->
  head post <> Some c ->
  let caret := strlen (before ++ [c] ++ mid ++ [c] ++ q) in
  target this =
    InputTarget (mkTextControl (before ++ [c] ++ mid ++ [c] ++ q ++ post) caret caret) ->
  let triggerPart := if keepTrigger this then [c] else [] in
  let newCaret := strlen (before ++ [c] ++ mid ++ triggerPart ++ tag ++ [SPACE]) in
  getTriggerQuery this = q /\
  target (insertTag this tag) =
    InputTarget
      (mkTextControl
         (before ++ [c] ++ mid ++ triggerPart ++ tag ++ [SPACE] ++ post)
         newCaret newCaret).
Proof.
  intros Htrig Hq Hpost caret Htarget triggerPart newCaret.
  set (pre := before ++ [c] ++ mid).
  assert (Hval : before ++ [c] ++ mid ++ [c] ++ q ++ post = pre ++ [c] ++ q ++ post).
  { subst pre. by rewrite <- !app_assoc. }
  assert (Hcaret : caret = strlen pre + 1 + strlen q).
  { subst caret pre. rewrite !strlen_app. change (strlen [c]) with 1. lia. }
  assert (Hidx : lastIndexOf (pre ++ [c] ++ q ++ post) [c] caret = strlen pre).
  { apply lastIndexOf_last. pose proof (strlen_nonneg pre). pose proof (strlen_nonneg q).
    rewrite Z.max_l by lia. rewrite Hcaret. by apply lastOccurrence_before_query. }
  pose proof (strlen_nonneg pre) as Hpre0.
  split.
  - unfold getTriggerQuery. rewrite Htarget, Htrig. unfold getQueryForInput.
    cbn [value selectionStart]. rewrite Hval, Hidx.
    replace (strlen pre =? -1) with false by (symmetry; apply Z.eqb_neq; lia).
    pose proof (substring_app_middle (pre ++ [c]) q post) as Hsub.
    rewrite <- !app_assoc in Hsub. rewrite strlen_app in Hsub.
    change (strlen [c]) with 1 in Hsub. rewrite Hcaret.
    exact Hsub.
  - unfold insertTag. rewrite Htarget. unfold withTarget. cbn [target].
    rewrite insertTagForTextarea_found;
      cbn [value selectionStart selectionEnd]; rewrite Htrig, Hval, Hidx; [|lia].
    fold triggerPart.
    assert (Htake : take (Z.to_nat (strlen pre)) (pre ++ [c] ++ q ++ post) = pre).
    { unfold strlen. rewrite Nat2Z.id. by rewrite take_app_length. }
    assert (Hdrop : drop (Z.to_nat caret) (pre ++ [c] ++ q ++ post) = post).
    { replace (pre ++ [c] ++ q ++ post) with ((pre ++ [c] ++ q) ++ post)
        by (by rewrite <- !app_assoc).
      replace (Z.to_nat caret) with (length (pre ++ [c] ++ q)).
      - by rewrite drop_app_length.
      - rewrite Hcaret. unfold strlen. rewrite !length_app. simpl. lia. }
    rewrite Htake, Hdrop.
    assert (Hnew : strlen pre + strlen triggerPart + strlen tag + 1 = newCaret).
    { subst newCaret pre. rewrite !strlen_app. change (strlen [SPACE]) with 1.
      change (strlen [c]) with 1. lia. }
    rewrite Hnew. subst pre. by rewrite <- !app_assoc.
Qed.

Lemma substring_swap s a b : substring s a b = substring s b a.
Proof. unfold substring. by rewrite Z.min_comm, Z.max_comm. Qed.

Lemma lastOccurrence_at_caret c s (n : nat) :
  s !! n = Some c -> lastOccurrenceUpTo [c] s (Z.of_nat n) (Z.of_nat n).
Proof.
  intros Hlook. split; [|split; [lia | by intros j _ Hj]].
  apply list_elem_of_split_length in Hlook as (pre & post & -> & ->).
  by exists pre, post.
Qed.

(** C10, where the code departs from it.  [lastIndexOf(trigger, start)]
    also accepts a trigger character that sits at index [start], right
    behind the caret.  In that case this character is the anchor, whatever
    the text in front of the caret holds: [substring(start + 1, start)]
    swaps its arguments and the query is the trigger character itself,
    and [insertTag] writes the tag at the caret without replacing
    anything in front of it. *)
Theorem trigger_behind_caret_is_taken_as_anchor
    (this : TagIt) (textarea : TextControl) (c : codeunit) (tag : jsstring) :
  target this = InputTarget textarea ->
  triggerChar this = [c] ->
  0 <= selectionStart textarea ->
  value textarea !! Z.to_nat (selectionStart textarea) = Some c ->
  let triggerPart := if keepTrigger this then [c] else [] in
  getTriggerQuery this = [c] /\
  target (insertTag this tag) =
    InputTarget
      (mkTextControl
         (take (Z.to_nat (selectionStart textarea)) (value textarea)
            ++ triggerPart ++ tag ++ [SPACE]
            ++ drop (Z.to_nat (selectionEnd textarea)) (value textarea))
         (selectionStart textarea + strlen triggerPart + strlen tag + 1)
         (selectionStart textarea + strlen triggerPart + strlen tag + 1)).
Proof.
  intros Htarget Htrig Hstart Hlook triggerPart.
  assert (Hidx : lastIndexOf (value textarea) [c] (selectionStart textarea)
                 = selectionStart textarea).
  { apply lastIndexOf_last. rewrite Z.max_l by lia.
    pose proof (lastOccurrence_at_caret c (value textarea)
                  (Z.to_nat (selectionStart textarea)) Hlook) as Hlast.
    by rewrite Z2Nat.id in Hlast by lia. }
  split.
  - unfold getTriggerQuery. rewrite Htarget, Htrig. unfold getQueryForInput.
    rewrite Hidx.
    replace (selectionStart textarea =? -1) with false
      by (symmetry; apply Z.eqb_neq; lia).
    rewrite substring_swap.
    apply list_elem_of_split_length in Hlook as (pre & post & Hvalue & Hlen).
    rewrite Hvalue.
    replace (selectionStart textarea) with (strlen pre)
      by (unfold strlen; lia).
    exact (substring_app_middle pre [c] post).
  - unfold insertTag. rewrite Htarget. unfold withTarget. cbn [target].
    rewrite insertTagForTextarea_found; rewrite Htrig, Hidx; [done|lia].
Qed.


(** ** Trigger detection *)

Lemma split_nonempty c s : split c s <> [].
Proof.
  destruct s as [|x s]; simpl; [done|].
  destruct (N.eqb x c); [done|]. by destruct (split c s).
Qed.

Lemma split_without_separator c s : c ∉ s -> split c s = [s].
Proof.
  induction s as [|x s IH]; intros Hc; simpl; [done|].
  apply not_elem_of_cons in Hc as [Hx Hs].
  destruct (N.eqb x c) eqn:Heq.
  - apply N.eqb_eq in Heq. congruence.
  - by rewrite IH.
Qed.

Lemma split_after_separator c pre rest :
  exists t ts, split c (pre ++ c :: rest) = t :: ts /\ ts <> [] /\
               last ts = last (split c rest).
Proof.
  induction pre as [|x pre (t & ts & Heq & Hts & Hlast)]; simpl.
  - rewrite N.eqb_refl. exists [], (split c rest).
    split; [done|]. split; [apply split_nonempty | done].
  - rewrite Heq. destruct (N.eqb x c).
    + exists [], (t :: ts). split; [done|]. split; [done|].
      destruct ts; [done|]. by rewrite last_cons_cons.
    + by exists (x :: t), ts.
Qed.

Lemma split_last_token text tok :
  finalToken text tok -> lastElement (split SPACE text) = Some tok.
Proof.
  unfold lastElement. intros [Hno [-> | [pre ->]]].
  - by rewrite split_without_separator.
  - destruct (split_after_separator SPACE pre tok) as (t & ts & Heq & Hts & Hlast).
    simpl. rewrite Heq. destruct ts; [done|].
    rewrite last_cons_cons, Hlast. by rewrite split_without_separator.
Qed.

Lemma finalToken_exists text : exists tok, finalToken text tok.
Proof.
  induction text as [|x text (tok & Hno & Htok)].
  - exists []. split; [apply not_elem_of_nil | by left].
  - destruct Htok as [-> | [pre ->]].
    + destruct (decide (x = SPACE)) as [->|Hx].
      * exists tok. split; [done|]. right. by exists [].
      * exists (x :: tok). split; [|by left].
        apply not_elem_of_cons. split; [congruence | done].
    + exists tok. split; [done|]. right. by exists (x :: pre).
Qed.

Lemma isSubstringOf_single c s : isSubstringOf [c] s <-> c ∈ s.
Proof.
  split.
  - intros (i & pre & post & -> & _). apply elem_of_app. right. by left.
  - intros (pre & post & ->)%list_elem_of_split. by exists (strlen pre), pre, post.
Qed.

Lemma replaceNbsp_reads_nbsp_as_space text normalised :
  nbspReadAsSpace text normalised <-> normalised = replaceNbsp text.
Proof.
  unfold nbspReadAsSpace. split.
  - induction 1 as [|x y text normalised Hxy _ IH]; simpl; [done|].
    rewrite IH. f_equal. destruct Hxy as [[-> ->] | [Hx ->]]; [done|].
    apply N.eqb_neq in Hx. by rewrite Hx.
  - intros ->. induction text as [|x text IH]; simpl; constructor; [|done].
    destruct (N.eqb x NBSP) eqn:Hx.
    + apply N.eqb_eq in Hx. by left.
    + apply N.eqb_neq in Hx. by right.
Qed.

(** C4. [isTriggerActive] is true exactly when, in the text before the
    caret with every non-breaking space (U+00A0) read as an ordinary
    space, the final space-delimited token starts with the trigger
    character, and the extracted query holds no space. *)
Theorem isTriggerActive_iff (this : TagIt) (normalised tok : jsstring) :
  nbspReadAsSpace (textBeforeCaret this) normalised ->
  finalToken normalised tok ->
  isTriggerActive this = true <->
  (exists rest, tok = triggerChar this ++ rest) /\ (SPACE ∉ getTriggerQuery this).
Proof.
  intros Hnorm Htok. apply replaceNbsp_reads_nbsp_as_space in Hnorm. subst normalised.
  unfold isTriggerActive.
  rewrite (split_last_token _ _ Htok).
  rewrite andb_true_iff, startsWith_prefix, Z.eqb_eq, indexOf_absent.
  by rewrite isSubstringOf_single.
Qed.

(** ** Suggestion pipeline *)

Lemma applyMiddlewares_app ms1 ms2 h l :
  applyMiddlewares (ms1 ++ ms2) h l =
  applyMiddlewares ms2 (fst (applyMiddlewares ms1 h l)) (snd (applyMiddlewares ms1 h l)).
Proof.
  revert h l. induction ms1 as [|m ms1 IH]; intros h l; simpl; [done|].
  destruct (m h l) as [h' [result|err]]; apply IH.
Qed.

(** When the middleware loop of [this] comes down to running [later] on
    [input] in the store [h2], the pipeline and the rendering are those of
    an instance that starts from there. *)
Lemma pipeline_continues this later h2 input position lineHeight :
  applyMiddlewares (middlewares this) (store this) (suggestions this) =
    applyMiddlewares later h2 input ->
  let rest := withMiddlewares (withSuggestions (withStore this h2) input) later in
  suggestionPipeline this = suggestionPipeline rest /\
  dropdown (showDropdown this position lineHeight) =
    dropdown (showDropdown rest position lineHeight).
Proof.
  intros Hloop rest.
  assert (Hpipe : suggestionPipeline this = suggestionPipeline rest).
  { unfold suggestionPipeline. rewrite Hloop. reflexivity. }
  split; [done|]. unfold showDropdown. rewrite Hpipe.
  destruct (suggestionPipeline rest) as [h' toShow].
  by destruct (length toShow =? 0)%nat.
Qed.

(** C7. In the render pipeline of [showDropdown] the registered
    middlewares run in registration order, each on the list left by the
    stage before it.  A middleware that throws is skipped for that stage
    only: the working list stays what was passed to it, the middlewares
    registered after it run on that list, and the dropdown is rendered
    from what they return. *)
Theorem throwing_middleware_is_skipped
    (earlier later : list SuggestionMiddleware) (m : SuggestionMiddleware)
    (h : Store) (suggestionsToShow : list loc) :
  let h1 := fst (applyMiddlewares earlier h suggestionsToShow) in
  let input := snd (applyMiddlewares earlier h suggestionsToShow) in
  (forall h2 err,
     m h1 input = (h2, Throw err) ->
     applyMiddlewares (earlier ++ m :: later) h suggestionsToShow =
     applyMiddlewares later h2 input /\
     applyMiddlewares (earlier ++ [m]) h suggestionsToShow = (h2, input)) /\
  (forall h2 output,
     m h1 input = (h2, Normal output) ->
     applyMiddlewares (earlier ++ m :: later) h suggestionsToShow =
     applyMiddlewares later h2 output /\
     applyMiddlewares (earlier ++ [m]) h suggestionsToShow = (h2, output)) /\
  (forall this, middlewares (use this m) = middlewares this ++ [m]) /\
  (forall this position lineHeight,
     middlewares this = earlier ++ m :: later ->
     store this = h ->
     suggestions this = suggestionsToShow ->
     (forall h2 err,
        m h1 input = (h2, Throw err) ->
        let rest :=
          withMiddlewares (withSuggestions (withStore this h2) input) later in
        suggestionPipeline this = suggestionPipeline rest /\
        dropdown (showDropdown this position lineHeight) =
          dropdown (showDropdown rest position lineHeight)) /\
     (forall h2 output,
        m h1 input = (h2, Normal output) ->
        let rest :=
          withMiddlewares (withSuggestions (withStore this h2) output) later in
        suggestionPipeline this = suggestionPipeline rest /\
        dropdown (showDropdown this position lineHeight) =
          dropdown (showDropdown rest position lineHeight))) /\
  (forall this,
     middlewares this = [] ->
     suggestionPipeline this =
       (fst (sortAndFilterSuggestions (store this) (suggestions this)
               (toLowerCase (getTriggerQuery this)) (minScore this)),
        slice0
          (snd (sortAndFilterSuggestions (store this) (suggestions this)
                  (toLowerCase (getTriggerQuery this)) (minScore this)))
          (maxSuggestions this))).
Proof.
  intros h1 input.
  assert (Hthrow : forall h2 err, m h1 input = (h2, Throw err) ->
            applyMiddlewares (earlier ++ m :: later) h suggestionsToShow =
            applyMiddlewares later h2 input).
  { intros h2 err Hm. rewrite applyMiddlewares_app. fold h1. fold input.
    simpl. by rewrite Hm. }
  assert (Hnormal : forall h2 output, m h1 input = (h2, Normal output) ->
            applyMiddlewares (earlier ++ m :: later) h suggestionsToShow =
            applyMiddlewares later h2 output).
  { intros h2 output Hm. rewrite applyMiddlewares_app. fold h1. fold input.
    simpl. by rewrite Hm. }
  split; [|split; [|split; [done|split]]].
  - intros h2 err Hm. split; [by eapply Hthrow|].
    rewrite applyMiddlewares_app. fold h1. fold input. simpl. by rewrite Hm.
  - intros h2 output Hm. split; [by apply Hnormal|].
    rewrite applyMiddlewares_app. fold h1. fold input. simpl. by rewrite Hm.
  - intros this position lineHeight Hms Hstore Hsugg. split.
    + intros h2 err Hm. apply pipeline_continues.
      rewrite Hms, Hstore, Hsugg. by eapply Hthrow.
    + intros h2 output Hm. apply pipeline_continues.
      rewrite Hms, Hstore, Hsugg. by apply Hnormal.
  - intros this Hms. unfold suggestionPipeline. rewrite Hms. simpl.
    by destruct (sortAndFilterSuggestions _ _ _ _).
Qed.

Lemma sortAndFilterSuggestions_nil h query minScore :
  sortAndFilterSuggestions h [] query minScore = (h, []).
Proof. unfold sortAndFilterSuggestions. by destruct (isEmpty query). Qed.

Lemma slice0_nil {A} n : slice0 (@nil A) n = [].
Proof. unfold slice0. by rewrite take_nil. Qed.

Lemma showDropdown_empty this position lineHeight :
  snd (suggestionPipeline this) = [] ->
  dropdown (showDropdown this position lineHeight) =
  mkDropdown DisplayNone (topStyle (dropdown this)) (leftStyle (dropdown this))
    (listItems (dropdown this)).
Proof.
  unfold showDropdown. destruct (suggestionPipeline this) as [h toShow].
  simpl. by intros ->.
Qed.

Lemma removeSuggestion_all this k :
  (forall l, l ∈ suggestions this -> key <$> store this !! l = Some k) ->
  suggestions (removeSuggestion this k) = [].
Proof.
  unfold removeSuggestion. simpl. induction (suggestions this) as [|l ls IH]; [done|].
  intros Hall. simpl.
  pose proof (Hall l ltac:(by left)) as Hl.
  destruct (store this !! l) as [item|]; [|done]. simpl in Hl.
  injection Hl as Hl. rewrite bool_decide_eq_true_2 by done. simpl.
  apply IH. intros l' Hl'. apply Hall. by right.
Qed.

(** C8. When the list left by the pipeline (clone, middlewares, scoring
    and filtering, truncation to [maxSuggestions]) is empty, [showDropdown]
    hides the dropdown and renders nothing: [display] becomes [none] and
    the list items and position are not touched.  In particular, once
    [removeSuggestion(k)] has removed every candidate and no middleware is
    registered, the dropdown is hidden whatever the query. *)
Theorem showDropdown_hides_on_empty
    (this : TagIt) (position : Coordinates) (lineHeight : Q) :
  (snd (suggestionPipeline this) = [] ->
   displayStyle (dropdown (showDropdown this position lineHeight)) = DisplayNone /\
   listItems (dropdown (showDropdown this position lineHeight)) =
     listItems (dropdown this) /\
   topStyle (dropdown (showDropdown this position lineHeight)) =
     topStyle (dropdown this) /\
   leftStyle (dropdown (showDropdown this position lineHeight)) =
     leftStyle (dropdown this)) /\
  (forall k,
     middlewares this = [] ->
     (forall l, l ∈ suggestions this -> key <$> store this !! l = Some k) ->
     snd (suggestionPipeline (removeSuggestion this k)) = [] /\
     displayStyle
       (dropdown (showDropdown (removeSuggestion this k) position lineHeight))
     = DisplayNone).
Proof.
  split.
  - intros Hempty. by rewrite showDropdown_empty.
  - intros k Hms Hall.
    assert (Hempty : snd (suggestionPipeline (removeSuggestion this k)) = []).
    { unfold suggestionPipeline. rewrite removeSuggestion_all by done.
      replace (middlewares (removeSuggestion this k)) with (@nil SuggestionMiddleware)
        by (by rewrite <- Hms).
      simpl. rewrite sortAndFilterSuggestions_nil. simpl. apply slice0_nil. }
    split; [done|]. by rewrite showDropdown_empty.
Qed.

(** ** Trigger not found *)

Lemma triggerAbsentUpTo_lastIndexOf trigger text caret :
  triggerAbsentUpTo trigger text caret <-> lastIndexOf text trigger caret = -1.
Proof. unfold triggerAbsentUpTo. by rewrite lastIndexOf_absent. Qed.

(** C9. When the trigger does not occur at or before the caret in the
    text the operation looks at (the value of the input, or the text node
    that holds the caret), query extraction returns the empty string and
    tag insertion changes no text, in both text models.  Every operation
    below is a total function with an ordinary result: none of these paths
    has an exceptional outcome. *)
Theorem trigger_absent_is_silent_noop (this : TagIt) (tag : jsstring) :
  (forall textarea,
     triggerAbsentUpTo (triggerChar this) (value textarea) (selectionStart textarea) ->
     getQueryForInput (triggerChar this) textarea = [] /\
     insertTagForTextarea this textarea tag = textarea /\
     (target this = InputTarget textarea ->
      getTriggerQuery this = [] /\ insertTag this tag = this)) /\
  (forall range text,
     firstRange (selection (document this)) = Some range ->
     nodes (document this) !! startContainer range = Some (TextNode text) ->
     triggerAbsentUpTo (triggerChar this) text (startOffset range) ->
     getQueryForEditable (triggerChar this) (document this) = [] /\
     (target this = EditableTarget -> getTriggerQuery this = [])) /\
  (forall range text,
     firstRange (restoredSelection this) = Some range ->
     nodes (document this) !! startContainer range = Some (TextNode text) ->
     triggerAbsentUpTo (triggerChar this) text (startOffset range) ->
     nodes (document (insertTagForContentEditable this tag)) = nodes (document this) /\
     insertTagForContentEditable this tag =
       withDocument this
         (mkDocument (nodes (document this)) (restoredSelection this)) /\
     (target this = EditableTarget ->
      target (insertTag this tag) = EditableTarget /\
      nodes (document (insertTag this tag)) = nodes (document this))).
Proof.
  split; [|split].
  - intros textarea Habs%triggerAbsentUpTo_lastIndexOf.
    assert (Hq : getQueryForInput (triggerChar this) textarea = []).
    { unfold getQueryForInput. by rewrite Habs. }
    assert (Hins : insertTagForTextarea this textarea tag = textarea).
    { unfold insertTagForTextarea. by rewrite Habs. }
    split; [done|]. split; [done|]. intros Ht. split.
    + unfold getTriggerQuery. by rewrite Ht.
    + unfold insertTag. rewrite Ht, Hins. destruct this; simpl in *. by subst.
  - intros range text Hsel Hnode Habs%triggerAbsentUpTo_lastIndexOf.
    assert (Hq : getQueryForEditable (triggerChar this) (document this) = []).
    { unfold getQueryForEditable. by rewrite Hsel, Hnode, Habs. }
    split; [done|]. intros Ht. unfold getTriggerQuery. by rewrite Ht.
  - intros range text Hsel Hnode Habs%triggerAbsentUpTo_lastIndexOf.
    assert (Hins : insertTagForContentEditable this tag =
                   withDocument this
                     (mkDocument (nodes (document this)) (restoredSelection this))).
    { unfold insertTagForContentEditable. by rewrite Hsel, Hnode, Habs. }
    split; [by rewrite Hins|]. split; [done|].
    intros Ht. unfold insertTag. rewrite Ht. by rewrite Hins.
Qed.

(** * Further properties of the scoring engine *)

Lemma position_score_strict i len :
  0 < i < len -> (1 - inject_Z i / inject_Z len < 1)%Q.
Proof.
  intros [Hi Hlen].
  assert (Hpos : (0 < inject_Z len)%Q).
  { change 0%Q with (inject_Z 0). rewrite <- Zlt_Qlt. lia. }
  assert (Hlo : (0 < inject_Z i / inject_Z len)%Q).
  { apply Qlt_shift_div_l; [done|]. rewrite Qmult_0_l.
    change 0%Q with (inject_Z 0). rewrite <- Zlt_Qlt. lia. }
  generalize dependent (inject_Z i / inject_Z len)%Q. clear.
  intros x Hlo. lra.
Qed.

Lemma position_score_zero len :
  0 < len -> (1 - inject_Z 0 / inject_Z len == 1)%Q.
Proof.
  intros Hlen. unfold Qdiv. change (inject_Z 0) with 0%Q.
  rewrite Qmult_0_l. lra.
Qed.

Lemma position_score_monotone i j len :
  0 <= i <= j -> 0 < len ->
  (1 - inject_Z j / inject_Z len <= 1 - inject_Z i / inject_Z len)%Q.
Proof.
  intros Hij Hlen.
  assert (Hpos : (0 < inject_Z len)%Q).
  { change 0%Q with (inject_Z 0). rewrite <- Zlt_Qlt. lia. }
  assert (Hle : (inject_Z i / inject_Z len <= inject_Z j / inject_Z len)%Q).
  { unfold Qdiv. apply Qmult_le_compat_r.
    - rewrite <- Zle_Qle. lia.
    - apply Qlt_le_weak. by apply Qinv_lt_0_compat. }
  generalize dependent (inject_Z i / inject_Z len)%Q.
  generalize dependent (inject_Z j / inject_Z len)%Q. clear.
  intros x y Hle. lra.
Qed.

(** The score of a candidate that holds the query somewhere but is not
    equal to it. *)
Lemma getMatchScore_position suggestionKey query i :
  toLowerCase query <> [] ->
  toLowerCase suggestionKey <> toLowerCase query ->
  firstOccurrence (toLowerCase query) (toLowerCase suggestionKey) i ->
  (getMatchScore suggestionKey query ==
     1 - inject_Z i / inject_Z (strlen (toLowerCase suggestionKey)))%Q.
Proof.
  intros Hq Hne Hfirst.
  pose proof (indexOf_first _ _ _ Hfirst) as Hidx.
  pose proof (firstOccurrence_position _ _ _ Hq Hfirst) as Hi.
  rewrite getMatchScore_unfold; [|done|done|lia].
  rewrite Hidx. apply clamp_unit_id.
  pose proof (position_score_bounds _ _ Hi) as [Hlo Hhi].
  split; [by apply Qlt_le_weak | done].
Qed.

Lemma getMatchScore_exact suggestionKey query :
  toLowerCase query <> [] ->
  toLowerCase suggestionKey = toLowerCase query ->
  getMatchScore suggestionKey query = 1%Q.
Proof.
  intros Hq Heq. unfold getMatchScore.
  apply isEmpty_false in Hq. rewrite Hq. by rewrite bool_decide_eq_true_2.
Qed.

(** X1. For a non-empty query the score is 1 exactly when the lower-cased
    key starts with the lower-cased query: a prefix match ranks as high as
    an exact match. *)
Theorem getMatchScore_one_iff_prefix (suggestionKey query : jsstring) :
  query <> [] ->
  (getMatchScore suggestionKey query == 1)%Q <->
  exists rest, toLowerCase suggestionKey = toLowerCase query ++ rest.
Proof.
  intros Hquery.
  assert (Hq : toLowerCase query <> []) by (by rewrite toLowerCase_empty).
  destruct (decide (toLowerCase suggestionKey = toLowerCase query)) as [Heq|Hne].
  { rewrite getMatchScore_exact by done. split; [|done].
    intros _. exists []. by rewrite app_nil_r. }
  destruct (indexOf_spec (toLowerCase suggestionKey) (toLowerCase query))
    as [[_ Hno] | Hfirst].
  { rewrite getMatchScore_absent by done. split; [intros Habs; lra|].
    intros [rest Hrest]. destruct Hno. exists 0, [], rest. by rewrite Hrest. }
  pose proof (firstOccurrence_position _ _ _ Hq Hfirst) as Hi.
  rewrite (getMatchScore_position _ _ _ Hq Hne Hfirst).
  split.
  - intros Hone.
    destruct (decide (indexOf (toLowerCase suggestionKey) (toLowerCase query) = 0))
      as [H0|H0].
    + destruct Hfirst as [Hocc _]. rewrite H0 in Hocc.
      by apply occursAt_zero, startsWith_prefix in Hocc.
    + pose proof (position_score_strict
                    (indexOf (toLowerCase suggestionKey) (toLowerCase query))
                    (strlen (toLowerCase suggestionKey)) ltac:(lia)) as Hlt.
      rewrite Hone in Hlt. by apply Qlt_irrefl in Hlt.
  - intros Hprefix%startsWith_prefix%occursAt_zero.
    destruct Hfirst as [_ Hmin]. specialize (Hmin 0 Hprefix).
    replace (indexOf (toLowerCase suggestionKey) (toLowerCase query)) with 0 by lia.
    apply position_score_zero. lia.
Qed.

(** X2. Among keys of the same (lower-cased) length, the key in which the
    query first occurs earlier never scores lower. *)
Theorem getMatchScore_earlier_is_higher
    (key1 key2 query : jsstring) (i1 i2 : Z) :
  query <> [] ->
  strlen (toLowerCase key1) = strlen (toLowerCase key2) ->
  firstOccurrence (toLowerCase query) (toLowerCase key1) i1 ->
  firstOccurrence (toLowerCase query) (toLowerCase key2) i2 ->
  i1 <= i2 ->
  (getMatchScore key2 query <= getMatchScore key1 query)%Q.
Proof.
  intros Hquery Hlen Hfirst1 Hfirst2 Hle.
  assert (Hq : toLowerCase query <> []) by (by rewrite toLowerCase_empty).
  destruct (decide (toLowerCase key1 = toLowerCase query)) as [Heq1|Hne1].
  { rewrite (getMatchScore_exact key1) by done. apply getMatchScore_bounds. }
  destruct (decide (toLowerCase key2 = toLowerCase query)) as [Heq2|Hne2].
  { exfalso. destruct Hfirst1 as [Hocc1 _]. destruct Hfirst2 as [Hocc2 _].
    pose proof (occursAt_range _ _ _ Hocc1) as Hr1. rewrite Hlen, Heq2 in Hr1.
    pose proof (occursAt_range _ _ _ Hocc2) as Hr2.
    assert (i1 = 0) by lia. subst i1.
    destruct Hocc1 as (pre & post & Hkey & Hpre).
    destruct pre; [|by unfold strlen in Hpre]. simpl in Hkey.
    apply Hne1. rewrite Hkey. rewrite <- (app_nil_r (toLowerCase query)) at 2.
    f_equal. apply (f_equal strlen) in Hkey. rewrite strlen_app in Hkey.
    rewrite Hlen, Heq2 in Hkey. destruct post; [done|].
    unfold strlen in Hkey. simpl in Hkey. lia. }
  rewrite (getMatchScore_position _ _ _ Hq Hne1 Hfirst1).
  rewrite (getMatchScore_position _ _ _ Hq Hne2 Hfirst2).
  pose proof (firstOccurrence_position _ _ _ Hq Hfirst1).
  pose proof (firstOccurrence_position _ _ _ Hq Hfirst2).
  rewrite <- Hlen. apply position_score_monotone; lia.
Qed.

(** * Further properties of the ranking *)

Lemma matchScoreOf_attached query (h : Store) suggestions l :
  l ∈ suggestions ->
  matchScoreOf (attachScores query h suggestions) l =
  (fun item => getMatchScore (key item) query) <$> h !! l.
Proof.
  intros Hin. unfold matchScoreOf. rewrite attachScores_lookup.
  rewrite decide_True by done. by destruct (h !! l).
Qed.

Lemma filter_all {A} (f : A -> bool) (l : list A) :
  (forall x, x ∈ l -> f x = true) -> List.filter f l = l.
Proof.
  intros Hall. apply forallb_filter_id, forallb_forall.
  intros x Hx. by apply Hall, list_elem_of_In.
Qed.

Lemma filter_none {A} (f : A -> bool) (l : list A) :
  (forall x, x ∈ l -> f x = false) -> List.filter f l = [].
Proof.
  induction l as [|x l IH]; intros Hnone; simpl; [done|].
  rewrite (Hnone x) by (by left). apply IH. intros y Hy. apply Hnone. by right.
Qed.

(** X3. With a threshold of 0 or less (0 is the default) nothing is
    filtered out: for a non-empty query every candidate comes back, the
    ones that do not match the query included, only reordered. *)
Theorem sortAndFilterSuggestions_keeps_all
    (h : Store) (suggestions : list loc) (query : jsstring) (minScore : Q) :
  query <> [] ->
  (minScore <= 0)%Q ->
  (forall l, l ∈ suggestions -> is_Some (h !! l)) ->
  snd (sortAndFilterSuggestions h suggestions query minScore) ≡ₚ suggestions.
Proof.
  intros Hquery Hmin Halloc.
  rewrite sortAndFilterSuggestions_unfold by done. simpl.
  rewrite sortBy_Permutation. rewrite filter_all; [done|].
  intros l Hl. apply reachesMinScore_true.
  destruct (Halloc l Hl) as [item Hitem].
  exists (getMatchScore (key item) query). split.
  - rewrite matchScoreOf_attached by done. by rewrite Hitem.
  - apply Qle_trans with 0%Q; [done|]. apply getMatchScore_bounds.
Qed.

(** X4. With a threshold above 1 no candidate can reach it: for a
    non-empty query the result is empty, exact matches included. *)
Theorem sortAndFilterSuggestions_threshold_above_one
    (h : Store) (suggestions : list loc) (query : jsstring) (minScore : Q) :
  query <> [] ->
  (1 < minScore)%Q ->
  snd (sortAndFilterSuggestions h suggestions query minScore) = [].
Proof.
  intros Hquery Hmin.
  rewrite sortAndFilterSuggestions_unfold by done. simpl.
  rewrite filter_none; [done|].
  intros l Hl. unfold reachesMinScore.
  rewrite matchScoreOf_attached by done.
  destruct (h !! l) as [item|]; simpl; [|done].
  destruct (Qle_bool minScore (getMatchScore (key item) query)) eqn:Hle; [|done].
  apply Qle_bool_iff in Hle.
  pose proof (getMatchScore_bounds (key item) query) as [_ Hone]. lra.
Qed.

Lemma sortBy_of_sorted {A} (cmp : A -> A -> Q) (R : A -> A -> Prop) l :
  (forall x y, R x y -> (cmp x y <= 0)%Q) ->
  StronglySorted R l -> sortBy cmp l = l.
Proof.
  intros Hcmp Hsorted. unfold sortBy.
  induction Hsorted as [|x l Hsorted IH Hx]; simpl; [done|].
  rewrite IH. destruct l as [|y l]; simpl; [done|].
  apply Forall_cons in Hx as [Hxy _].
  apply Hcmp, Qle_bool_iff in Hxy. by rewrite Hxy.
Qed.

Lemma scoredNotBelow_compare h a b :
  scoredNotBelow h a b -> (byScoreDescending h a b <= 0)%Q.
Proof.
  intros (sa & sb & Ha & Hb & Hle). unfold byScoreDescending.
  rewrite Ha, Hb. lra.
Qed.

Lemma attachScores_again query (h : Store) suggestions out :
  (forall l, l ∈ out -> l ∈ suggestions) ->
  attachScores query (attachScores query h suggestions) out =
  attachScores query h suggestions.
Proof.
  intros Hsub. apply map_eq. intros l.
  rewrite (attachScores_lookup query out). case_decide as Hin; [|done].
  rewrite attachScores_lookup. rewrite decide_True by auto.
  destruct (h !! l); simpl; [by rewrite attachScore_idemp | done].
Qed.

(** What comes out of a ranking for a non-empty query. *)
Lemma ranked_output h suggestions query minScore :
  let h' := attachScores query h suggestions in
  let out := sortBy (byScoreDescending h')
               (List.filter (reachesMinScore h' minScore) suggestions) in
  (forall l, l ∈ out ->
     l ∈ suggestions /\
     exists sc, matchScoreOf h' l = Some sc /\ (minScore <= sc)%Q) /\
  StronglySorted (scoredNotBelow h') out.
Proof.
  intros h' out.
  assert (Hfilter : forall l,
    l ∈ List.filter (reachesMinScore h' minScore) suggestions ->
    l ∈ suggestions /\
    exists sc, matchScoreOf h' l = Some sc /\ (minScore <= sc)%Q).
  { intros l Hl. apply list_elem_of_In, filter_In in Hl as [Hin Hsc].
    split; [by apply list_elem_of_In|]. by apply reachesMinScore_true. }
  split.
  - intros l Hl. apply Hfilter. subst out.
    by rewrite <- (sortBy_Permutation (byScoreDescending h')).
  - apply sortBy_sorted with (inRange := fun l => is_Some (matchScoreOf h' l)).
    + intros x y Hx Hy. by apply byScoreDescending_order.
    + apply scoredNotBelow_trans.
    + apply Forall_forall. intros l Hl.
      destruct (Hfilter l Hl) as (_ & sc & Hsc & _). by exists sc.
Qed.

(** X5. Ranking is idempotent: ranking the result again, for the same
    non-empty query and threshold, changes neither the order of the
    candidates nor any score. *)
Theorem sortAndFilterSuggestions_idempotent
    (h : Store) (suggestions : list loc) (query : jsstring) (minScore : Q) :
  query <> [] ->
  let ranked := sortAndFilterSuggestions h suggestions query minScore in
  sortAndFilterSuggestions (fst ranked) (snd ranked) query minScore = ranked.
Proof.
  intros Hquery ranked. subst ranked.
  rewrite (sortAndFilterSuggestions_unfold h) by done. simpl.
  destruct (ranked_output h suggestions query minScore) as [Honly Hsorted].
  set (h' := attachScores query h suggestions) in *.
  set (out := sortBy (byScoreDescending h')
                (List.filter (reachesMinScore h' minScore) suggestions)) in *.
  rewrite sortAndFilterSuggestions_unfold by done.
  assert (Hstore : attachScores query h' out = h').
  { apply attachScores_again. intros l Hl. by apply Honly. }
  rewrite Hstore. f_equal.
  rewrite filter_all.
  - eapply sortBy_of_sorted; [|exact Hsorted]. apply scoredNotBelow_compare.
  - intros l Hl. apply reachesMinScore_true. by apply Honly.
Qed.

(** * Further properties of the candidate set and of the pipeline *)

Lemma filter_sublist {A} (f : A -> bool) (l : list A) :
  sublist (List.filter f l) l.
Proof.
  induction l as [|x l IH]; simpl; [constructor|].
  destruct (f x); by constructor.
Qed.

Lemma filter_idemp {A} (f : A -> bool) (l : list A) :
  List.filter f (List.filter f l) = List.filter f l.
Proof.
  apply filter_all. intros x Hx. by apply list_elem_of_In, filter_In in Hx as [_ Hx].
Qed.

(** X6. [removeSuggestion(key)] drops every candidate whose key is [key]
    and only those, keeps the others in their order, and removing the same
    key a second time changes nothing. *)
Theorem removeSuggestion_removes_all_with_key (this : TagIt) (k : jsstring) :
  (forall l, l ∈ suggestions (removeSuggestion this k) <->
             l ∈ suggestions this /\ key <$> store this !! l <> Some k) /\
  sublist (suggestions (removeSuggestion this k)) (suggestions this) /\
  removeSuggestion (removeSuggestion this k) k = removeSuggestion this k.
Proof.
  split; [|split].
  - intros l. unfold removeSuggestion. simpl.
    rewrite list_elem_of_In, filter_In, <- list_elem_of_In.
    destruct (store this !! l) as [item|]; simpl.
    + rewrite negb_true_iff, bool_decide_eq_false.
      split; intros [Hin Hkey]; (split; [done|]); congruence.
    + split; intros [Hin _]; by split.
  - apply filter_sublist.
  - unfold removeSuggestion, withSuggestions. simpl. by rewrite filter_idemp.
Qed.

(** X7. Adding a candidate under a key that no current candidate carries
    and then removing that key gives back the candidate list as it was. *)
Theorem addSuggestion_then_removeSuggestion
    (this : TagIt) (l : loc) (item : SuggestionItem) :
  store this !! l = Some item ->
  (forall l', l' ∈ suggestions this ->
              key <$> store this !! l' <> Some (key item)) ->
  suggestions (removeSuggestion (addSuggestion this l) (key item)) =
  suggestions this.
Proof.
  intros Hitem Hfresh. unfold removeSuggestion, addSuggestion. simpl.
  rewrite List.filter_app. simpl. rewrite Hitem.
  rewrite bool_decide_eq_true_2 by done. simpl. rewrite app_nil_r.
  apply filter_all. intros l' Hl'. specialize (Hfresh l' Hl').
  destruct (store this !! l') as [item'|]; simpl in *; [|done].
  apply negb_true_iff, bool_decide_eq_false. congruence.
Qed.

Lemma slice0_length {A} (arr : list A) n :
  0 <= n -> Z.of_nat (length (slice0 arr n)) <= n.
Proof.
  intros Hn. unfold slice0.
  replace (n <? 0) with false by (symmetry; apply Z.ltb_ge; lia).
  rewrite length_take. lia.
Qed.

(** X8. With a non-negative [maxSuggestions], the list [showDropdown]
    works with never holds more than [maxSuggestions] candidates, and when
    it is not empty the dropdown is displayed with exactly one item per
    candidate of that list, in its order. *)
Theorem showDropdown_respects_maxSuggestions
    (this : TagIt) (position : Coordinates) (lineHeight : Q) :
  0 <= maxSuggestions this ->
  Z.of_nat (length (snd (suggestionPipeline this))) <= maxSuggestions this /\
  (snd (suggestionPipeline this) <> [] ->
   displayStyle (dropdown (showDropdown this position lineHeight)) = DisplayBlock /\
   listItems (dropdown (showDropdown this position lineHeight)) =
     map (displayOf (fst (suggestionPipeline this))) (snd (suggestionPipeline this)) /\
   Z.of_nat (length (listItems (dropdown (showDropdown this position lineHeight))))
     <= maxSuggestions this).
Proof.
  intros Hmax.
  assert (Hlen : Z.of_nat (length (snd (suggestionPipeline this))) <= maxSuggestions this).
  { unfold suggestionPipeline.
    destruct (applyMiddlewares _ _ _) as [h1 l1].
    destruct (sortAndFilterSuggestions _ _ _ _) as [h2 l2]. simpl.
    by apply slice0_length. }
  split; [done|]. intros Hne. unfold showDropdown.
  destruct (suggestionPipeline this) as [h toShow]. simpl in *.
  destruct toShow as [|x toShow]; [done|]. simpl.
  split; [done|]. split; [done|]. rewrite length_map. exact Hlen.
Qed.

(** X9. When the query is empty (the caret sits right behind the
    trigger) the pipeline neither scores, filters nor sorts: the list is
    what the middlewares left, cut to [maxSuggestions], and the suggestion
    objects are as the middlewares left them. *)
Theorem suggestionPipeline_empty_query (this : TagIt) :
  getTriggerQuery this = [] ->
  suggestionPipeline this =
  (fst (applyMiddlewares (middlewares this) (store this) (suggestions this)),
   slice0 (snd (applyMiddlewares (middlewares this) (store this) (suggestions this)))
     (maxSuggestions this)).
Proof.
  intros Hquery. unfold suggestionPipeline. rewrite Hquery.
  rewrite (proj2 (toLowerCase_empty []) eq_refl).
  by destruct (applyMiddlewares _ _ _) as [h1 l1].
Qed.

(** * Further properties of the flat-buffer model *)

Lemma textBefore_after_insert this textarea tag :
  let i := lastIndexOf (value textarea) (triggerChar this) (selectionStart textarea) in
  let triggerPart := if keepTrigger this then triggerChar this else [] in
  i <> -1 ->
  getTextBeforeCaretForInput (insertTagForTextarea this textarea tag) =
  (take (Z.to_nat i) (value textarea) ++ triggerPart ++ tag) ++ [SPACE].
Proof.
  intros i triggerPart Hi.
  pose proof (lastIndexOf_range _ _ _ Hi) as Hrange. fold i in Hrange.
  rewrite insertTagForTextarea_found by done. fold i. fold triggerPart.
  unfold getTextBeforeCaretForInput. cbn [value selectionStart].
  set (inserted := (take (Z.to_nat i) (value textarea) ++ triggerPart ++ tag) ++ [SPACE]).
  replace (take (Z.to_nat i) (value textarea) ++ triggerPart ++ tag ++ [SPACE]
             ++ drop (Z.to_nat (selectionEnd textarea)) (value textarea))
    with (inserted ++ drop (Z.to_nat (selectionEnd textarea)) (value textarea))
    by (subst inserted; by rewrite <- !app_assoc).
  replace (i + strlen triggerPart + strlen tag + 1) with (strlen inserted).
  - apply substring_app_prefix.
  - subst inserted. rewrite !strlen_app. change (strlen [SPACE]) with 1.
    assert (strlen (take (Z.to_nat i) (value textarea)) = i); [|lia].
    unfold strlen in *. rewrite length_take. lia.
Qed.

(** X10. Round trip in the flat buffer: after a tag has been inserted,
    the text before the caret is the old text in front of the trigger
    followed by the trigger (when it is kept), the tag and one space. *)
Theorem insertTag_then_text_before_caret
    (this : TagIt) (textarea : TextControl) (tag : jsstring) (i : Z) :
  lastOccurrenceUpTo (triggerChar this) (value textarea) (selectionStart textarea) i ->
  let triggerPart := if keepTrigger this then triggerChar this else [] in
  getTextBeforeCaretForInput (insertTagForTextarea this textarea tag) =
  take (Z.to_nat i) (value textarea) ++ triggerPart ++ tag ++ [SPACE].
Proof.
  intros (Hocc & Hle & Hmax) triggerPart.
  pose proof (occursAt_range _ _ _ Hocc) as [H0 _].
  assert (Hidx : lastIndexOf (value textarea) (triggerChar this)
                   (selectionStart textarea) = i).
  { apply lastIndexOf_last. by rewrite Z.max_l by lia. }
  rewrite textBefore_after_insert by (rewrite Hidx; lia).
  rewrite Hidx. fold triggerPart. by rewrite <- !app_assoc.
Qed.

Lemma replaceNbsp_app s t : replaceNbsp (s ++ t) = replaceNbsp s ++ replaceNbsp t.
Proof. unfold replaceNbsp. apply map_app. Qed.

Lemma isTriggerActive_after_space this text :
  triggerChar this <> [] ->
  textBeforeCaret this = text ++ [SPACE] ->
  isTriggerActive this = false.
Proof.
  intros Htrig Htext. unfold isTriggerActive.
  rewrite Htext, replaceNbsp_app.
  rewrite (split_last_token (replaceNbsp text ++ replaceNbsp [SPACE]) []).
  - destruct (triggerChar this); done.
  - split; [apply not_elem_of_nil|]. right. by exists (replaceNbsp text).
Qed.

(** X11. Once a tag has been inserted into an input or textarea, the
    trigger is no longer active (for a non-empty trigger string): the text
    before the caret ends with the space that follows the tag. *)
Theorem insertTag_deactivates_trigger
    (this : TagIt) (textarea : TextControl) (tag : jsstring) :
  target this = InputTarget textarea ->
  triggerChar this <> [] ->
  lastIndexOf (value textarea) (triggerChar this) (selectionStart textarea) <> -1 ->
  isTriggerActive (insertTag this tag) = false.
Proof.
  intros Htarget Htrig Hfound.
  eapply isTriggerActive_after_space.
  - unfold insertTag. rewrite Htarget. done.
  - unfold insertTag. rewrite Htarget. unfold textBeforeCaret, withTarget.
    cbn [target]. by apply textBefore_after_insert.
Qed.

Lemma substring_from_zero s i : substring s 0 i = take (Z.to_nat i) s.
Proof.
  unfold substring, clamp, strlen.
  match goal with
  | |- take ?a (drop ?b s) = _ =>
      replace b with 0%nat by lia;
      replace a with (Nat.min (Z.to_nat i) (length s)) by lia
  end.
  rewrite drop_0. destruct (Nat.le_ge_cases (Z.to_nat i) (length s)).
  - by rewrite Nat.min_l.
  - rewrite Nat.min_r by done. by rewrite !take_ge by lia.
Qed.

Lemma replaceNbsp_without_space s t :
  replaceNbsp s = t -> SPACE ∉ t -> s = t.
Proof.
  revert t. induction s as [|x s IH]; intros t Hmap Hno; simpl in Hmap; [done|].
  destruct t as [|y t]; [done|]. injection Hmap as Hx Hs.
  apply not_elem_of_cons in Hno as [Hy Hno].
  f_equal; [|by apply IH].
  destruct (N.eqb x NBSP); [congruence | done].
Qed.

(** When the final token of the normalised text starts with the trigger,
    the trigger occurs in the text itself. *)
Lemma finalToken_trigger_occurs text tok trigger rest :
  finalToken (replaceNbsp text) tok ->
  tok = trigger ++ rest ->
  exists j, occursAt trigger text j.
Proof.
  intros [Hno Hshape] ->.
  assert (Htrig : SPACE ∉ trigger).
  { intros Hin. apply Hno, elem_of_app. by left. }
  assert (Hsplit : exists front back,
            replaceNbsp text = front ++ trigger ++ back).
  { destruct Hshape as [-> | [pre ->]].
    - by exists [], rest.
    - exists (pre ++ [SPACE]), rest. by rewrite <- app_assoc. }
  destruct Hsplit as (front & back & Hmap).
  unfold replaceNbsp in Hmap.
  apply map_eq_app in Hmap as (front' & tail' & -> & Hfront & Htail).
  apply map_eq_app in Htail as (trigger' & back' & -> & Htrigger & Hback).
  apply replaceNbsp_without_space in Htrigger; [|done]. subst trigger'.
  by exists (strlen front'), front', back'.
Qed.

Lemma isTriggerActive_token this :
  isTriggerActive this = true ->
  exists tok rest,
    finalToken (replaceNbsp (textBeforeCaret this)) tok /\
    tok = triggerChar this ++ rest.
Proof.
  intros Hactive.
  destruct (finalToken_exists (replaceNbsp (textBeforeCaret this))) as [tok Htok].
  unfold isTriggerActive in Hactive.
  rewrite (split_last_token _ _ Htok) in Hactive.
  apply andb_true_iff in Hactive as [Hstarts _].
  apply startsWith_prefix in Hstarts as [rest Hrest]. by exists tok, rest.
Qed.

Lemma occursAt_in_prefix trigger s (n : nat) j :
  occursAt trigger (take n s) j ->
  occursAt trigger s j /\ j <= Z.of_nat n.
Proof.
  intros (pre & post & Htake & Hlen).
  split.
  - exists pre, (post ++ drop n s). split; [|done].
    rewrite <- (take_drop n s) at 1. rewrite Htake. by rewrite <- !app_assoc.
  - apply (f_equal strlen) in Htake. rewrite !strlen_app in Htake.
    pose proof (strlen_nonneg trigger). pose proof (strlen_nonneg post).
    unfold strlen in *. rewrite length_take in Htake. lia.
Qed.

(** X12. In an input or textarea, whenever the trigger is active the
    trigger is found at or before the caret, so inserting a tag is never
    the silent no-op: the value becomes the splice around the last
    trigger occurrence. *)
Theorem active_trigger_is_found
    (this : TagIt) (textarea : TextControl) (tag : jsstring) :
  target this = InputTarget textarea ->
  isTriggerActive this = true ->
  let i := lastIndexOf (value textarea) (triggerChar this) (selectionStart textarea) in
  let triggerPart := if keepTrigger this then triggerChar this else [] in
  0 <= i <= Z.max (selectionStart textarea) 0 /\
  occursAt (triggerChar this) (value textarea) i /\
  value (insertTagForTextarea this textarea tag) =
    take (Z.to_nat i) (value textarea) ++ triggerPart ++ tag ++ [SPACE]
      ++ drop (Z.to_nat (selectionEnd textarea)) (value textarea).
Proof.
  intros Htarget Hactive i triggerPart.
  destruct (isTriggerActive_token this Hactive) as (tok & rest & Htok & Hrest).
  destruct (finalToken_trigger_occurs _ _ _ _ Htok Hrest) as [j Hj].
  unfold textBeforeCaret in Hj. rewrite Htarget in Hj.
  unfold getTextBeforeCaretForInput in Hj. rewrite substring_from_zero in Hj.
  apply occursAt_in_prefix in Hj as [Hocc Hle].
  assert (Hfound : i <> -1).
  { intros Habs. apply (proj1 (lastIndexOf_absent _ _ _) Habs j Hocc). lia. }
  destruct (lastIndexOf_found _ _ _ Hfound) as (Hi & Hmax & _). fold i in Hi, Hmax.
  pose proof (occursAt_range _ _ _ Hi) as [H0 _].
  split; [lia|]. split; [done|].
  by rewrite insertTagForTextarea_found.
Qed.

Lemma elem_of_substring c s a b :
  0 <= a <= b ->
  c ∈ substring s a b ->
  exists j, a <= j < b /\ s !! Z.to_nat j = Some c.
Proof.
  intros Hab Hin. unfold substring, clamp, strlen in Hin.
  apply list_elem_of_lookup in Hin as [k Hk].
  pose proof (lookup_lt_Some _ _ _ Hk) as Hlt. rewrite length_take in Hlt.
  rewrite lookup_take in Hk. case_decide as Hkn; [|done].
  rewrite lookup_drop in Hk.
  pose proof (lookup_lt_Some _ _ _ Hk) as Hlen.
  match type of Hk with
  | s !! (?m + k)%nat = _ => exists (Z.of_nat (m + k))
  end.
  split; [lia|]. by rewrite Nat2Z.id.
Qed.

Lemma lookup_occursAt c s (j : nat) : s !! j = Some c -> occursAt [c] s (Z.of_nat j).
Proof.
  intros (pre & post & -> & ->)%list_elem_of_split_length. by exists pre, post.
Qed.

(** X13. In an input or textarea whose caret does not sit immediately in
    front of a trigger character, the extracted query holds no trigger
    character (for a trigger of one character): it is the text behind the
    last trigger. *)
Theorem query_holds_no_trigger
    (this : TagIt) (textarea : TextControl) (c : codeunit) :
  target this = InputTarget textarea ->
  triggerChar this = [c] ->
  0 <= selectionStart textarea ->
  value textarea !! Z.to_nat (selectionStart textarea) <> Some c ->
  c ∉ getTriggerQuery this.
Proof.
  intros Htarget Htrig Hstart Hcaret.
  unfold getTriggerQuery. rewrite Htarget, Htrig. unfold getQueryForInput.
  destruct (lastIndexOf (value textarea) [c] (selectionStart textarea) =? -1) eqn:Hidx.
  { apply not_elem_of_nil. }
  apply Z.eqb_neq in Hidx.
  destruct (lastIndexOf_found _ _ _ Hidx) as (Hocc & Hle & Hmax).
  set (i := lastIndexOf (value textarea) [c] (selectionStart textarea)) in *.
  rewrite Z.max_l in Hle, Hmax by lia.
  pose proof (occursAt_range _ _ _ Hocc) as [H0 _].
  pose proof (occursAt_single _ _ _ Hocc) as Hlook.
  assert (i <> selectionStart textarea) by congruence.
  intros (j & Hj & Hlookj)%elem_of_substring; [|lia].
  apply lookup_occursAt in Hlookj. rewrite Z2Nat.id in Hlookj by lia.
  specialize (Hmax j Hlookj). lia.
Qed.

(** * Further properties of the editable model *)

Lemma isTriggerActive_empty_text this :
  triggerChar this <> [] ->
  textBeforeCaret this = [] ->
  isTriggerActive this = false.
Proof.
  intros Htrig Htext. unfold isTriggerActive. rewrite Htext. simpl.
  by destruct (triggerChar this).
Qed.

(** X14. In an editable region, when the current selection has no range
    or its start is not inside a text node, the text before the caret and
    the query are empty and the trigger (a non-empty string) is inactive.
    Inserting a tag changes no node when the selection it works on (the
    saved range, if there is one and [getSelection()] returns a selection,
    otherwise the current selection) has no range or does not start in a
    text node; this is so in particular when [getSelection()] returns
    [null], and when no range was saved and the current selection has no
    range or does not start in a text node. *)
Theorem editable_without_text_caret (this : TagIt) (tag : jsstring) :
  target this = EditableTarget ->
  (caretText (selection (document this)) (nodes (document this)) = None ->
   textBeforeCaret this = [] /\
   getTriggerQuery this = [] /\
   (triggerChar this <> [] -> isTriggerActive this = false)) /\
  (caretText (restoredSelection this) (nodes (document this)) = None ->
   nodes (document (insertTag this tag)) = nodes (document this)) /\
  (selection (document this) = None ->
   nodes (document (insertTag this tag)) = nodes (document this)) /\
  (savedRange this = None ->
   caretText (selection (document this)) (nodes (document this)) = None ->
   nodes (document (insertTag this tag)) = nodes (document this)).
Proof.
  intros Htarget.
  assert (Hwrite : caretText (restoredSelection this) (nodes (document this)) = None ->
                   nodes (document (insertTag this tag)) = nodes (document this)).
  { intros Hcaret. unfold insertTag, insertTagForContentEditable. rewrite Htarget.
    unfold caretText in Hcaret.
    destruct (firstRange (restoredSelection this)) as [range|]; [|done].
    by destruct (nodes (document this) !! startContainer range) as [[text|ch]|]. }
  split; [|split; [done|split]].
  - intros Hcaret.
    assert (Htext : textBeforeCaret this = []).
    { unfold textBeforeCaret, getTextBeforeCaretForEditable. rewrite Htarget.
      unfold caretText in Hcaret.
      destruct (firstRange (selection (document this))) as [range|]; [|done].
      by destruct (nodes (document this) !! startContainer range) as [[text|ch]|]. }
    split; [done|]. split.
    + unfold getTriggerQuery, getQueryForEditable. rewrite Htarget.
      unfold caretText in Hcaret.
      destruct (firstRange (selection (document this))) as [range|]; [|done].
      by destruct (nodes (document this) !! startContainer range) as [[text|ch]|].
    + intros Htrig. by apply isTriggerActive_empty_text.
  - intros Hsel. apply Hwrite. unfold restoredSelection. rewrite Hsel.
    by destruct (savedRange this).
  - intros Hsaved Hcaret. apply Hwrite. unfold restoredSelection.
    by rewrite Hsaved.
Qed.

Lemma parentNode_Some ns n p children :
  parentNode ns n = Some (p, children) ->
  ns !! p = Some (ElementNode children) /\ n ∈ children.
Proof.
  unfold parentNode. intros Hfind.
  destruct (List.find _ (map_to_list ns)) as [[p' [text|ch]]|] eqn:Hf; [done| |done].
  injection Hfind as -> ->.
  apply find_some in Hf as [Hin Htest]. simpl in Htest.
  apply bool_decide_eq_true in Htest.
  split; [|done]. by apply elem_of_map_to_list, list_elem_of_In.
Qed.

Lemma insertBefore_at newChild refChild pre post :
  refChild ∉ pre ->
  insertBefore newChild refChild (pre ++ refChild :: post) =
  pre ++ newChild :: refChild :: post.
Proof.
  induction pre as [|c pre IH]; intros Hno; simpl.
  - by rewrite Nat.eqb_refl.
  - apply not_elem_of_cons in Hno as [Hne Hno].
    replace (c =? refChild)%nat with false by (symmetry; apply Nat.eqb_neq; congruence).
    by rewrite IH.
Qed.

Lemma removeChild_at child pre post :
  child ∉ pre -> removeChild child (pre ++ child :: post) = pre ++ post.
Proof.
  induction pre as [|c pre IH]; intros Hno; simpl.
  - by rewrite Nat.eqb_refl.
  - apply not_elem_of_cons in Hno as [Hne Hno].
    replace (c =? child)%nat with false by (symmetry; apply Nat.eqb_neq; congruence).
    by rewrite IH.
Qed.

Lemma childIndex_at child pre post :
  child ∉ pre -> childIndex child (pre ++ child :: post) = Z.of_nat (length pre).
Proof.
  induction pre as [|c pre IH]; intros Hno; simpl.
  - by rewrite Nat.eqb_refl.
  - apply not_elem_of_cons in Hno as [Hne Hno].
    replace (c =? child)%nat with false by (symmetry; apply Nat.eqb_neq; congruence).
    rewrite IH by done. lia.
Qed.

(** X15. The splice in an editable region.  When the caret (after the
    saved range has been restored) is in a text node [n] that is a child
    of [parent] and the trigger is found in its text at index [i], the
    node [n] is replaced in [parent], at its place, by three new text
    nodes holding the text in front of the trigger, the inserted text
    (trigger when kept, tag, one space) and the text behind the caret; the
    caret is put right behind the second of them, and no other node
    changes. *)
Theorem insertTagForContentEditable_splice
    (this : TagIt) (tag : jsstring) (range : Range) (text : jsstring)
    (parent : node) (pre post : list node) :
  firstRange (restoredSelection this) = Some range ->
  nodes (document this) !! startContainer range = Some (TextNode text) ->
  lastIndexOf text (triggerChar this) (startOffset range) <> -1 ->
  parentNode (nodes (document this)) (startContainer range)
    = Some (parent, pre ++ startContainer range :: post) ->
  startContainer range ∉ pre ->
  (forall c, c ∈ pre -> is_Some (nodes (document this) !! c)) ->
  let i := lastIndexOf text (triggerChar this) (startOffset range) in
  let triggerPart := if keepTrigger this then triggerChar this else [] in
  let after := insertTagForContentEditable this tag in
  exists beforeNode tagNode afterNode,
    nodes (document this) !! beforeNode = None /\
    nodes (document this) !! tagNode = None /\
    nodes (document this) !! afterNode = None /\
    nodes (document after) !! parent =
      Some (ElementNode (pre ++ [beforeNode; tagNode; afterNode] ++ post)) /\
    nodes (document after) !! beforeNode = Some (TextNode (take (Z.to_nat i) text)) /\
    nodes (document after) !! tagNode =
      Some (TextNode (triggerPart ++ tag ++ [SPACE])) /\
    nodes (document after) !! afterNode =
      Some (TextNode (drop (Z.to_nat (startOffset range)) text)) /\
    selection (document after) =
      Some (Some (mkRange parent (Z.of_nat (length pre) + 2))) /\
    (forall m, m <> parent -> m <> beforeNode -> m <> tagNode -> m <> afterNode ->
               nodes (document after) !! m = nodes (document this) !! m).
Proof.
  intros Hsel Hnode Hfound Hparent Hpre Hdom i triggerPart after.
  set (ns := nodes (document this)) in *.
  set (n := startContainer range) in *.
  destruct (parentNode_Some _ _ _ _ Hparent) as [Hp _].
  pose proof (lastIndexOf_range _ _ _ Hfound) as Hrange. fold i in Hrange.
  set (b := fresh (dom ns)).
  set (ns1 := <[b := TextNode (substring text 0 i)]> ns).
  set (t := fresh (dom ns1)).
  set (ns2 := <[t := TextNode (triggerPart ++ tag ++ [SPACE])]> ns1).
  set (a := fresh (dom ns2)).
  set (ns3 := <[a := TextNode (substringFrom text (startOffset range))]> ns2).
  assert (Hb : ns !! b = None).
  { apply not_elem_of_dom. apply is_fresh. }
  assert (Ht1 : ns1 !! t = None).
  { apply not_elem_of_dom. apply is_fresh. }
  assert (Ha2 : ns2 !! a = None).
  { apply not_elem_of_dom. apply is_fresh. }
  assert (Htb : t <> b).
  { intros ->. subst ns1. by rewrite lookup_insert_eq in Ht1. }
  assert (Ht : ns !! t = None).
  { subst ns1. by rewrite lookup_insert_ne in Ht1. }
  assert (Hat : a <> t).
  { intros ->. subst ns2. by rewrite lookup_insert_eq in Ha2. }
  assert (Ha1 : ns1 !! a = None).
  { subst ns2. by rewrite lookup_insert_ne in Ha2. }
  assert (Hab : a <> b).
  { intros ->. subst ns1. by rewrite lookup_insert_eq in Ha1. }
  assert (Ha : ns !! a = None).
  { subst ns1. by rewrite lookup_insert_ne in Ha1. }
  assert (Hfresh : forall x, ns !! x = None -> x <> n /\ x <> parent /\ x ∉ pre).
  { intros x Hx. split; [congruence|]. split; [congruence|].
    intros Hin. destruct (Hdom x Hin) as [? ?]. congruence. }
  destruct (Hfresh b Hb) as (Hbn & Hbp & Hbpre).
  destruct (Hfresh t Ht) as (Htn & Htp & Htpre).
  destruct (Hfresh a Ha) as (Han & Hap & Hapre).
  assert (Hchildren :
    removeChild n
      (insertBefore a n (insertBefore t n
         (insertBefore b n (pre ++ n :: post))))
    = pre ++ [b; t; a] ++ post).
  { rewrite insertBefore_at by done.
    replace (pre ++ b :: n :: post) with ((pre ++ [b]) ++ n :: post)
      by (by rewrite <- app_assoc).
    rewrite insertBefore_at
      by (intros [?|?%list_elem_of_singleton]%elem_of_app; [done|congruence]).
    replace ((pre ++ [b]) ++ t :: n :: post) with ((pre ++ [b; t]) ++ n :: post)
      by (by rewrite <- !app_assoc).
    rewrite insertBefore_at.
    2:{ intros [?|Hin]%elem_of_app; [done|].
        apply elem_of_cons in Hin as [?|?%list_elem_of_singleton]; congruence. }
    replace ((pre ++ [b; t]) ++ a :: n :: post) with ((pre ++ [b; t; a]) ++ n :: post)
      by (by rewrite <- !app_assoc).
    rewrite removeChild_at; [by rewrite <- app_assoc|].
    intros [?|Hin]%elem_of_app; [done|].
    apply elem_of_cons in Hin as [?|Hin]; [congruence|].
    apply elem_of_cons in Hin as [?|?%list_elem_of_singleton]; congruence. }
  assert (Hindex : childIndex t (pre ++ [b; t; a] ++ post) = Z.of_nat (length pre) + 1).
  { replace (pre ++ [b; t; a] ++ post) with ((pre ++ [b]) ++ t :: a :: post)
      by (by rewrite <- app_assoc).
    rewrite childIndex_at.
    - rewrite length_app. simpl. lia.
    - intros [?|?%list_elem_of_singleton]%elem_of_app; [done|congruence]. }
  assert (Hafter : after =
    withDocument this
      (mkDocument (<[parent := ElementNode (pre ++ [b; t; a] ++ post)]> ns3)
         (Some (Some (mkRange parent (Z.of_nat (length pre) + 1 + 1)))))).
  { subst after. unfold insertTagForContentEditable.
    rewrite Hsel. fold n ns. rewrite Hnode. fold i.
    replace (i =? -1) with false by (symmetry; apply Z.eqb_neq; done).
    unfold createTextNode. fold triggerPart b ns1 t ns2 a ns3.
    fold n. rewrite Hparent. rewrite Hchildren, Hindex. done. }
  exists b, t, a. rewrite Hafter. unfold withDocument. cbn [document nodes selection].
  split; [done|]. split; [done|]. split; [done|].
  split; [by rewrite lookup_insert_eq|].
  split.
  { rewrite lookup_insert_ne by done. subst ns3 ns2 ns1.
    rewrite !lookup_insert_ne by done. rewrite lookup_insert_eq.
    by rewrite substring_take by lia. }
  split.
  { rewrite lookup_insert_ne by done. subst ns3 ns2.
    rewrite lookup_insert_ne by done. by rewrite lookup_insert_eq. }
  split.
  { rewrite lookup_insert_ne by done. subst ns3. rewrite lookup_insert_eq.
    by rewrite substringFrom_drop. }
  split.
  { do 3 f_equal. lia. }
  intros m Hmp Hmb Hmt Hma. subst ns3 ns2 ns1.
  by rewrite !lookup_insert_ne by done.
Qed.

(** * Properties of the event handlers *)

Lemma clearFetchTimeout_empty c :
  onlyRecordedTimer c -> clearFetchTimeout c = ∅.
Proof.
  intros Hinv. apply map_empty. intros id. unfold clearFetchTimeout.
  destruct (fetchTimeout c) as [old|] eqn:Hold.
  - destruct (decide (old = id)) as [->|Hne]; [by rewrite lookup_delete_eq|].
    rewrite lookup_delete_ne by done.
    destruct (timers c !! id) as [position|] eqn:Hid; [|done].
    destruct (Hinv id position Hid) as [Hrec _]. congruence.
  - destruct (timers c !! id) as [position|] eqn:Hid; [|done].
    destruct (Hinv id position Hid) as [Hrec _]. congruence.
Qed.

Lemma onKeyUp_onlyRecordedTimer c geometry lineHeight :
  onlyRecordedTimer c -> onlyRecordedTimer (onKeyUp c geometry lineHeight).
Proof.
  intros Hinv. pose proof (clearFetchTimeout_empty c Hinv) as Hclear.
  unfold onKeyUp. destruct (isTriggerActive _).
  - destruct (geometry _) as [doc position].
    destruct (hasFetchSuggestions c); [|exact Hinv].
    intros id pos. cbn [timers fetchTimeout nextTimerId]. rewrite Hclear.
    intros [[<- _]|[_ Hlook]]%lookup_insert_Some; [|by rewrite lookup_empty in Hlook].
    split; [done | lia].
  - intros id pos. cbn [timers]. rewrite Hclear. by rewrite lookup_empty.
Qed.

Lemma handle_onlyRecordedTimer c e :
  onlyRecordedTimer c -> onlyRecordedTimer (handle c e).
Proof.
  intros Hinv. destruct e as [g lh|id|k h result lh|k|inside|t d]; simpl.
  - by apply onKeyUp_onlyRecordedTimer.
  - unfold onTimer. destruct (timers c !! id) as [position|] eqn:Hid; [|done].
    intros id' pos. cbn [timers fetchTimeout nextTimerId].
    intros [_ Hlook]%lookup_delete_Some. by apply (Hinv id' pos).
  - unfold onFetchResolved. by destruct (awaiting c !! k).
  - exact Hinv.
  - unfold onOutsideClick. by destruct inside.
  - exact Hinv.
Qed.

Lemma run_onlyRecordedTimer c es :
  onlyRecordedTimer c -> onlyRecordedTimer (foldl handle c es).
Proof.
  revert c. induction es as [|e es IH]; intros c Hinv; simpl; [done|].
  by apply IH, handle_onlyRecordedTimer.
Qed.

Lemma freshController_onlyRecordedTimer this fetch :
  onlyRecordedTimer (freshController this fetch).
Proof. intros id position Hlook. simpl in Hlook. by rewrite lookup_empty in Hlook. Qed.

Lemma onlyRecordedTimer_size c :
  onlyRecordedTimer c -> (size (timers c) <= 1)%nat.
Proof.
  intros Hinv. destruct (fetchTimeout c) as [id|] eqn:Hrec.
  - destruct (timers c !! id) as [position|] eqn:Hid.
    + assert (Hsingle : timers c = {[id := position]}).
      { apply map_eq. intros id'. destruct (decide (id = id')) as [<-|Hne].
        - by rewrite lookup_singleton_eq.
        - rewrite lookup_singleton_ne by done.
          destruct (timers c !! id') as [pos'|] eqn:Hid'; [|done].
          destruct (Hinv id' pos' Hid') as [Hrec' _]. congruence. }
      rewrite Hsingle. by rewrite map_size_singleton.
    + assert (Hempty : timers c = ∅).
      { apply map_empty. intros id'.
        destruct (timers c !! id') as [pos'|] eqn:Hid'; [|done].
        destruct (Hinv id' pos' Hid') as [Hrec' _]. congruence. }
      rewrite Hempty. rewrite map_size_empty. lia.
  - assert (Hempty : timers c = ∅).
    { apply map_empty. intros id'.
      destruct (timers c !! id') as [pos'|] eqn:Hid'; [|done].
      destruct (Hinv id' pos' Hid') as [Hrec' _]. congruence. }
    rewrite Hempty. rewrite map_size_empty. lia.
Qed.

(** X16. Debounce: whatever events a new instance goes through, at most
    one of the timers it has set is pending, and that timer is the one
    recorded in [fetchTimeout]; every key-up that re-arms the timer clears
    the previous one. *)
Theorem at_most_one_pending_timer
    (this : TagIt) (fetch : bool) (events : list Event) :
  let c := foldl handle (freshController this fetch) events in
  (size (timers c) <= 1)%nat /\
  (forall id, is_Some (timers c !! id) -> fetchTimeout c = Some id).
Proof.
  intros c.
  assert (Hinv : onlyRecordedTimer c).
  { apply run_onlyRecordedTimer, freshController_onlyRecordedTimer. }
  split; [by apply onlyRecordedTimer_size|].
  intros id [position Hid]. by destruct (Hinv id position Hid).
Qed.

(** X17. A key-up that finds the trigger inactive leaves no timer
    pending, forgets [fetchTimeout] and hides the dropdown, whatever
    happened to the instance before. *)
Theorem inactive_keyup_cancels_and_hides
    (this : TagIt) (fetch : bool) (events : list Event)
    (geometry : Document -> Document * Coordinates) (lineHeight : Q) :
  let c := foldl handle (freshController this fetch) events in
  isTriggerActive (instance c) = false ->
  timers (onKeyUp c geometry lineHeight) = ∅ /\
  fetchTimeout (onKeyUp c geometry lineHeight) = None /\
  displayStyle (dropdown (instance (onKeyUp c geometry lineHeight))) = DisplayNone.
Proof.
  intros c Hinactive.
  assert (Hinv : onlyRecordedTimer c).
  { apply run_onlyRecordedTimer, freshController_onlyRecordedTimer. }
  unfold onKeyUp.
  assert (Hsaved : forall r, isTriggerActive (withSavedRange (instance c) r) = false)
    by (intros r; exact Hinactive).
  destruct (firstRange (selection (document (instance c)))) as [range|].
  - rewrite Hsaved. cbn [timers fetchTimeout instance].
    split; [by apply clearFetchTimeout_empty|]. split; [by destruct (fetchTimeout c) | done].
  - rewrite Hinactive. cbn [timers fetchTimeout instance].
    split; [by apply clearFetchTimeout_empty|]. split; [by destruct (fetchTimeout c) | done].
Qed.

(** * Properties of the listeners *)

Lemma removeEventListener_absent f listeners :
  f ∉ listeners -> removeEventListener f listeners = listeners.
Proof.
  intros Hno. unfold removeEventListener. apply filter_all.
  intros g Hg. apply negb_true_iff, Nat.eqb_neq. congruence.
Qed.

Lemma removeChild_absent child children :
  child ∉ children -> removeChild child children = children.
Proof.
  induction children as [|c children IH]; intros Hno; simpl; [done|].
  apply not_elem_of_cons in Hno as [Hne Hno].
  replace (c =? child)%nat with false by (symmetry; apply Nat.eqb_neq; congruence).
  by rewrite IH.
Qed.

Lemma removeChild_last child children :
  child ∉ children -> removeChild child (children ++ [child]) = children.
Proof.
  intros Hno. rewrite removeChild_at by done. by rewrite app_nil_r.
Qed.

(** X18. [destroy()] takes the dropdown element out of the body but
    detaches no listener: it asks to remove freshly bound functions, which
    are not the function objects the constructor registered.  The key-up
    and click listeners added by the constructor are still registered
    afterwards, and a second [destroy()] throws because the dropdown is no
    longer a child of the body. *)
Theorem destroy_keeps_listeners (p : Page) (dropdownElement : node) :
  listenersExist p ->
  dropdownElement ∉ bodyChildren p ->
  let built := construct p dropdownElement in
  exists destroyed,
    destroy built dropdownElement = Normal destroyed /\
    keyupListeners destroyed = keyupListeners p ++ [functionCount p] /\
    clickListeners destroyed = clickListeners p ++ [S (functionCount p)] /\
    bodyChildren destroyed = bodyChildren p /\
    destroy destroyed dropdownElement = Throw (str "NotFoundError").
Proof.
  intros Hexist Hbody built.
  assert (Hk : functionCount p ∉ keyupListeners p).
  { intros Hin. specialize (Hexist (functionCount p)).
    rewrite elem_of_app in Hexist. specialize (Hexist (or_introl Hin)). lia. }
  assert (Hc : S (functionCount p) ∉ clickListeners p).
  { intros Hin. specialize (Hexist (S (functionCount p))).
    rewrite elem_of_app in Hexist. specialize (Hexist (or_intror Hin)). lia. }
  assert (Hbuilt : built =
    mkPage (keyupListeners p ++ [functionCount p])
      (clickListeners p ++ [S (functionCount p)])
      (bodyChildren p ++ [dropdownElement]) (S (S (functionCount p)))).
  { subst built. unfold construct, attachEvents, createDropdown, bind, addEventListener.
    cbn [keyupListeners clickListeners bodyChildren functionCount].
    rewrite !bool_decide_eq_false_2 by done.
    by rewrite removeChild_absent. }
  assert (Hfresh : forall f, (S (functionCount p) < f)%nat ->
            (f ∉ keyupListeners p ++ [functionCount p]) /\
            (f ∉ clickListeners p ++ [S (functionCount p)])).
  { intros f Hf. split; intros [Hin|Hin%list_elem_of_singleton]%elem_of_app; try lia.
    - specialize (Hexist f). rewrite elem_of_app in Hexist.
      specialize (Hexist (or_introl Hin)). lia.
    - specialize (Hexist f). rewrite elem_of_app in Hexist.
      specialize (Hexist (or_intror Hin)). lia. }
  exists (mkPage (keyupListeners p ++ [functionCount p])
            (clickListeners p ++ [S (functionCount p)])
            (bodyChildren p) (S (S (S (S (functionCount p)))))).
  rewrite Hbuilt. unfold destroy, bind.
  cbn [keyupListeners clickListeners bodyChildren functionCount].
  rewrite !removeEventListener_absent
    by (first [apply (Hfresh (S (S (functionCount p)))) |
               apply (Hfresh (S (S (S (functionCount p)))))|
               apply (Hfresh (S (S (S (S (functionCount p))))))|
               apply (Hfresh (S (S (S (S (S (functionCount p)))))))]; lia).
  rewrite bool_decide_eq_true_2 by (apply elem_of_app; right; by left).
  rewrite removeChild_last by done.
  split; [done|]. split; [done|]. split; [done|]. split; [done|].
  by rewrite bool_decide_eq_false_2.
Qed.

End TagItJS.

(** ** Concrete scenarios *)

Lemma toLowerCaseAscii_empty s : toLowerCaseAscii s = [] <-> s = [].
Proof. by destruct s. Qed.

Lemma toLowerCaseAscii_length s : strlen (toLowerCaseAscii s) = strlen s.
Proof. unfold strlen, toLowerCaseAscii. by rewrite length_map. Qed.

(** Scenario A: the query typed in ["hello @al"] is ["al"]. *)
Example scenario_query :
  getTriggerQuery (onTextarea (str "hello @al") 9 false) = str "al" /\
  isTriggerActive (onTextarea (str "hello @al") 9 false) = true.
Proof. by vm_compute. Qed.

(** Scenario A, ranking: ["Alice"] and ["Albert"] both hold ["al"] at
    index 0 and both score 1. *)
Example scenario_tie :
  getMatchScore toLowerCaseAscii (str "Alice") (str "al") = 1%Q /\
  getMatchScore toLowerCaseAscii (str "Albert") (str "al") = 1%Q.
Proof. by vm_compute. Qed.

(** Scenario C: with [keepTrigger] the trigger stays in front of the tag. *)
Example scenario_keepTrigger :
  target (insertTag (onTextarea (str "hello @al") 9 true) (str "Alice")) =
  InputTarget (mkTextControl (str "hello @Alice ") 13 13).
Proof. by vm_compute. Qed.

(** The splice in the editable model: the text node is replaced by three. *)
Example scenario_editable_splice :
  let this := insertTag (onEditable (str "hi @bo there") 6) (str "Bob") in
  nodes (document this) !! 0%nat = Some (ElementNode [2%nat; 3%nat; 4%nat]) /\
  nodes (document this) !! 2%nat = Some (TextNode (str "hi ")) /\
  nodes (document this) !! 3%nat = Some (TextNode (str "Bob ")) /\
  nodes (document this) !! 4%nat = Some (TextNode (str " there")) /\
  selection (document this) = Some (Some (mkRange 0%nat 2)).
Proof. by vm_compute. Qed.

Lemma getMatchScore_cases_witness :
  getMatchScore toLowerCaseAscii (str "Alice") [] = 0%Q /\
  getMatchScore toLowerCaseAscii (str "ALICE") (str "alice") = 1%Q /\
  getMatchScore toLowerCaseAscii (str "Alice") (str "bob") = 0%Q /\
  (getMatchScore toLowerCaseAscii (str "Malice") (str "al") == 1 - 1 / 6)%Q /\
  (0 <= getMatchScore toLowerCaseAscii (str "Malice") (str "al") <= 1)%Q.
Proof.
  pose proof (getMatchScore_cases toLowerCaseAscii toLowerCaseAscii_empty) as Hcases.
  split; [|split; [|split; [|split]]].
  - destruct (Hcases (str "Alice") []) as (Hempty & _).
    apply Hempty. reflexivity.
  - destruct (Hcases (str "ALICE") (str "alice")) as (_ & Hequal & _).
    apply Hequal; [discriminate | reflexivity].
  - destruct (Hcases (str "Alice") (str "bob")) as (_ & _ & Habsent & _).
    apply Habsent; [discriminate|].
    apply indexOf_absent. reflexivity.
  - destruct (Hcases (str "Malice") (str "al")) as (_ & _ & _ & Hposition & _).
    apply (Hposition ltac:(discriminate) ltac:(discriminate) 1).
    apply (indexOf_found (toLowerCaseAscii (str "Malice")) (toLowerCaseAscii (str "al"))).
    discriminate.
  - destruct (Hcases (str "Malice") (str "al")) as (_ & _ & _ & _ & Hbounds).
    exact Hbounds.
Defined.

Lemma getMatchScore_zero_iff_witness :
  ((getMatchScore toLowerCaseAscii (str "Malice") (str "al") == 0)%Q <->
   ~ isSubstringOf (toLowerCaseAscii (str "al")) (toLowerCaseAscii (str "Malice"))) /\
  getMatchScore toLowerCaseAscii (str "Malice") [] = 0%Q /\
  isSubstringOf (toLowerCaseAscii []) (toLowerCaseAscii (str "Malice")).
Proof.
  split.
  - apply (getMatchScore_zero_iff toLowerCaseAscii toLowerCaseAscii_empty
             (str "Malice") (str "al")).
    discriminate.
  - apply (getMatchScore_zero_iff toLowerCaseAscii toLowerCaseAscii_empty
             (str "Malice") []).
    reflexivity.
Defined.

(** Without the restriction to non-empty queries the equivalence of C5
    fails: the score of key ["a"] for the query [""] is 0, yet [""] occurs
    in ["a"]. *)
Lemma getMatchScore_zero_iff_fails_on_empty_query :
  ~ (forall suggestionKey query : jsstring,
       (getMatchScore toLowerCaseAscii suggestionKey query == 0)%Q <->
       ~ isSubstringOf (toLowerCaseAscii query) (toLowerCaseAscii suggestionKey)).
Proof.
  intros Hall. destruct (Hall (str "a") []) as [Hzero _].
  apply Hzero; [reflexivity|].
  exists 0, [], (str "a"). split; reflexivity.
Qed.

Lemma sortAndFilterSuggestions_ranked_witness :
  let ranked :=
    sortAndFilterSuggestions toLowerCaseAscii sampleStore
      [2%nat; 1%nat; 0%nat] (str "al") (1 # 2) in
  str "al" <> [] /\
  snd ranked = [0%nat; 1%nat] /\
  StronglySorted (scoredNotBelow (fst ranked)) (snd ranked) /\
  (forall l, l ∈ snd ranked ->
     l ∈ [2%nat; 1%nat; 0%nat] /\
     exists sc, matchScoreOf (fst ranked) l = Some sc /\ (1 # 2 <= sc)%Q) /\
  fst ranked !! 2%nat = Some (mkSuggestion (str "Bob") (str "Bob") (Some 0%Q)).
Proof.
  intros ranked.
  assert (Hquery : str "al" <> []) by discriminate.
  destruct (sortAndFilterSuggestions_ranked toLowerCaseAscii sampleStore
              [2%nat; 1%nat; 0%nat] (str "al") (1 # 2) Hquery)
    as (Hattached & _ & Honly & _ & Hsorted).
  split; [exact Hquery|]. split; [reflexivity|].
  split; [exact Hsorted|]. split; [exact Honly|].
  apply (Hattached 2%nat (mkSuggestion (str "Bob") (str "Bob") None)).
  - left.
  - reflexivity.
Defined.

Lemma insertTagForTextarea_splice_witness :
  let this := onTextarea (str "hello @al") 9 false in
  let textarea := mkTextControl (str "hello @al") 9 9 in
  lastOccurrenceUpTo [AT_SIGN] (str "hello @al") 9 6 /\
  value (insertTagForTextarea this textarea (str "Alice")) = str "hello Alice " /\
  selectionStart (insertTagForTextarea this textarea (str "Alice")) = 12 /\
  selectionEnd (insertTagForTextarea this textarea (str "Alice")) = 12.
Proof.
  intros this textarea.
  assert (Hlast : lastOccurrenceUpTo [AT_SIGN] (str "hello @al") 9 6).
  { apply (lastIndexOf_found (str "hello @al") [AT_SIGN] 9). discriminate. }
  destruct (insertTagForTextarea_splice this textarea (str "Alice") 6 Hlast)
    as (Hvalue & Hstart & Hend & _).
  split; [exact Hlast|]. split; [exact Hvalue|]. split; [exact Hstart | exact Hend].
Defined.

Lemma isTriggerActive_iff_witness :
  let spaced := onTextarea (str "@foo bar") 8 false in
  let nbsp := onTextarea (str "hello" ++ [NBSP] ++ str "@al") 9 false in
  nbspReadAsSpace (textBeforeCaret spaced) (str "@foo bar") /\
  finalToken (str "@foo bar") (str "bar") /\
  isTriggerActive spaced = false /\
  nbspReadAsSpace (textBeforeCaret nbsp) (str "hello @al") /\
  finalToken (str "hello @al") (str "@al") /\
  isTriggerActive nbsp = true.
Proof.
  intros spaced nbsp.
  assert (Hnorm1 : nbspReadAsSpace (textBeforeCaret spaced) (str "@foo bar")).
  { repeat (constructor; [right; split; [discriminate | reflexivity]|]).
    constructor. }
  assert (Htoken1 : finalToken (str "@foo bar") (str "bar")).
  { split.
    - intros Hin. repeat (apply elem_of_cons in Hin as [Hin|Hin]; [discriminate|]).
      by apply elem_of_nil in Hin.
    - right. exists (str "@foo"). reflexivity. }
  assert (Hnorm2 : nbspReadAsSpace (textBeforeCaret nbsp) (str "hello @al")).
  { repeat (constructor;
              [first [left; split; reflexivity
                     | right; split; [discriminate | reflexivity]]|]).
    constructor. }
  assert (Htoken2 : finalToken (str "hello @al") (str "@al")).
  { split.
    - intros Hin. repeat (apply elem_of_cons in Hin as [Hin|Hin]; [discriminate|]).
      by apply elem_of_nil in Hin.
    - right. exists (str "hello"). reflexivity. }
  split; [exact Hnorm1|]. split; [exact Htoken1|]. split.
  { destruct (isTriggerActive spaced) eqn:Hactive; [|reflexivity].
    apply (isTriggerActive_iff spaced (str "@foo bar") (str "bar") Hnorm1 Htoken1)
      in Hactive.
    destruct Hactive as [[rest Hrest] _]. discriminate. }
  split; [exact Hnorm2|]. split; [exact Htoken2|].
  apply (isTriggerActive_iff nbsp (str "hello @al") (str "@al") Hnorm2 Htoken2).
  split.
  - exists (str "al"). reflexivity.
  - intros Hin. repeat (apply elem_of_cons in Hin as [Hin|Hin]; [discriminate|]).
    by apply elem_of_nil in Hin.
Defined.

Lemma throwing_middleware_is_skipped_witness :
  let this :=
    use (use (use (onTextarea (str "hello @") 7 false) keepLongKeys) alwaysThrows)
      reversed in
  applyMiddlewares ([keepLongKeys] ++ alwaysThrows :: [reversed])
    sampleStore [0%nat; 1%nat; 2%nat]
  = applyMiddlewares [reversed] sampleStore [0%nat; 1%nat] /\
  applyMiddlewares ([keepLongKeys] ++ [alwaysThrows])
    sampleStore [0%nat; 1%nat; 2%nat]
  = (sampleStore, [0%nat; 1%nat]) /\
  applyMiddlewares ([keepLongKeys; alwaysThrows] ++ reversed :: [])
    sampleStore [0%nat; 1%nat; 2%nat]
  = (sampleStore, [1%nat; 0%nat]) /\
  snd (suggestionPipeline toLowerCaseAscii this) = [1%nat; 0%nat] /\
  listItems (dropdown (showDropdown toLowerCaseAscii this (mkCoordinates 10 20) 12))
  = [str "Malice"; str "Alice"].
Proof.
  intros this.
  destruct (throwing_middleware_is_skipped toLowerCaseAscii
              [keepLongKeys] [reversed] alwaysThrows
              sampleStore [0%nat; 1%nat; 2%nat]) as (Hthrow & _ & _ & Hrender & _).
  destruct (Hthrow sampleStore (str "boom") eq_refl) as [Hskip Hkept].
  destruct (throwing_middleware_is_skipped toLowerCaseAscii
              [keepLongKeys; alwaysThrows] [] reversed
              sampleStore [0%nat; 1%nat; 2%nat]) as (_ & Hnormal & _).
  destruct (Hnormal sampleStore [1%nat; 0%nat] eq_refl) as [Hnext _].
  destruct (Hrender this (mkCoordinates 10 20) 12%Q eq_refl eq_refl eq_refl)
    as [Hrender_throw _].
  destruct (Hrender_throw sampleStore (str "boom") eq_refl) as [Hpipe Hshown].
  split; [exact Hskip|]. split; [exact Hkept|]. split; [exact Hnext|]. split.
  - exact (eq_trans (f_equal snd Hpipe) eq_refl).
  - exact (eq_trans (f_equal listItems Hshown) eq_refl).
Defined.

Lemma showDropdown_hides_on_empty_witness :
  let this := removeSuggestion onlyBob (str "Bob") in
  snd (suggestionPipeline toLowerCaseAscii this) = [] /\
  displayStyle (dropdown (showDropdown toLowerCaseAscii this (mkCoordinates 10 20) 12))
    = DisplayNone /\
  listItems (dropdown (showDropdown toLowerCaseAscii this (mkCoordinates 10 20) 12))
    = [str "Bob"].
Proof.
  intros this.
  destruct (showDropdown_hides_on_empty toLowerCaseAscii onlyBob (mkCoordinates 10 20) 12)
    as [_ Hremoved].
  assert (Hkeys : forall l, l ∈ suggestions onlyBob ->
                            key <$> store onlyBob !! l = Some (str "Bob")).
  { intros l Hl. apply elem_of_cons in Hl as [->|Hl]; [reflexivity|].
    by apply elem_of_nil in Hl. }
  destruct (Hremoved (str "Bob") eq_refl Hkeys) as [Hempty Hhidden].
  destruct (showDropdown_hides_on_empty toLowerCaseAscii this (mkCoordinates 10 20) 12)
    as [Hgeneral _].
  destruct (Hgeneral Hempty) as (_ & Hitems & _).
  split; [exact Hempty|]. split; [exact Hhidden | exact Hitems].
Defined.

Lemma trigger_absent_is_silent_noop_witness :
  let flat := onTextarea (str "hello al") 8 false in
  let tree := onEditable (str "hi bo") 5 in
  triggerAbsentUpTo [AT_SIGN] (str "hello al") 8 /\
  getTriggerQuery flat = [] /\
  insertTag flat (str "Alice") = flat /\
  getTriggerQuery tree = [] /\
  nodes (document (insertTag tree (str "Bob"))) = nodes (document tree).
Proof.
  intros flat tree.
  assert (Hflat : triggerAbsentUpTo [AT_SIGN] (str "hello al") 8).
  { apply triggerAbsentUpTo_lastIndexOf. reflexivity. }
  assert (Htree : triggerAbsentUpTo [AT_SIGN] (str "hi bo") 5).
  { apply triggerAbsentUpTo_lastIndexOf. reflexivity. }
  destruct (trigger_absent_is_silent_noop flat (str "Alice")) as (Hinput & _ & _).
  destruct (Hinput (mkTextControl (str "hello al") 8 8) Hflat) as (_ & _ & Hthis).
  destruct (Hthis eq_refl) as [Hquery Hinsert].
  destruct (trigger_absent_is_silent_noop tree (str "Bob")) as (_ & Hread & Hwrite).
  destruct (Hread (mkRange 1%nat 5) (str "hi bo") eq_refl eq_refl Htree) as [_ Hquery'].
  destruct (Hwrite (mkRange 1%nat 5) (str "hi bo") eq_refl eq_refl Htree)
    as (_ & _ & Hthis').
  destruct (Hthis' eq_refl) as [_ Hnodes].
  split; [exact Hflat|]. split; [exact Hquery|]. split; [exact Hinsert|].
  split; [exact (Hquery' eq_refl) | exact Hnodes].
Defined.

Lemma trigger_behind_caret_is_taken_as_anchor_witness :
  let this := onTextarea (str "@a@b@") 4 false in
  getTriggerQuery this = str "@" /\
  target (insertTag this (str "Bob")) =
    InputTarget (mkTextControl (str "@a@bBob @") 8 8).
Proof.
  intros this.
  exact (trigger_behind_caret_is_taken_as_anchor this
           (mkTextControl (str "@a@b@") 4 4) AT_SIGN (str "Bob")
           eq_refl eq_refl ltac:(discriminate) eq_refl).
Defined.

Lemma second_trigger_is_anchor_witness :
  let this := onTextarea (str "@a@b") 4 false in
  getTriggerQuery this = str "b" /\
  target (insertTag this (str "Bob")) =
    InputTarget (mkTextControl (str "@aBob ") 6 6).
Proof.
  intros this.
  assert (Hq : AT_SIGN ∉ str "b").
  { intros Hin. apply elem_of_cons in Hin as [Hin|Hin]; [discriminate|].
    by apply elem_of_nil in Hin. }
  assert (Hpost : head (@nil codeunit) <> Some AT_SIGN) by discriminate.
  exact (second_trigger_is_anchor this AT_SIGN [] (str "a") (str "b") []
           (str "Bob") eq_refl Hq Hpost eq_refl).
Defined.

(** ** Instances of the further properties *)

Lemma getMatchScore_one_iff_prefix_witness :
  str "al" <> [] /\
  ((getMatchScore toLowerCaseAscii (str "Alice") (str "al") == 1)%Q <->
   exists rest, toLowerCaseAscii (str "Alice") = toLowerCaseAscii (str "al") ++ rest).
Proof.
  assert (Hquery : str "al" <> []) by discriminate.
  split; [exact Hquery|].
  exact (getMatchScore_one_iff_prefix toLowerCaseAscii toLowerCaseAscii_empty
           (str "Alice") (str "al") Hquery).
Defined.

Lemma getMatchScore_earlier_is_higher_witness :
  firstOccurrence (toLowerCaseAscii (str "al")) (toLowerCaseAscii (str "Malice")) 1 /\
  firstOccurrence (toLowerCaseAscii (str "al")) (toLowerCaseAscii (str "Rivals")) 3 /\
  (getMatchScore toLowerCaseAscii (str "Rivals") (str "al")
   <= getMatchScore toLowerCaseAscii (str "Malice") (str "al"))%Q.
Proof.
  assert (H1 : firstOccurrence (toLowerCaseAscii (str "al"))
                 (toLowerCaseAscii (str "Malice")) 1).
  { apply (indexOf_found (toLowerCaseAscii (str "Malice")) (toLowerCaseAscii (str "al"))).
    discriminate. }
  assert (H2 : firstOccurrence (toLowerCaseAscii (str "al"))
                 (toLowerCaseAscii (str "Rivals")) 3).
  { apply (indexOf_found (toLowerCaseAscii (str "Rivals")) (toLowerCaseAscii (str "al"))).
    discriminate. }
  split; [exact H1|]. split; [exact H2|].
  apply (getMatchScore_earlier_is_higher toLowerCaseAscii toLowerCaseAscii_empty
           (str "Malice") (str "Rivals") (str "al") 1 3);
    [discriminate | reflexivity | exact H1 | exact H2 | lia].
Defined.

Lemma sampleStore_allocated l :
  l ∈ [2%nat; 1%nat; 0%nat] -> is_Some (sampleStore !! l).
Proof.
  intros Hl.
  repeat (apply elem_of_cons in Hl as [->|Hl]; [by eexists|]).
  by apply elem_of_nil in Hl.
Qed.

Lemma sortAndFilterSuggestions_keeps_all_witness :
  snd (sortAndFilterSuggestions toLowerCaseAscii sampleStore
         [2%nat; 1%nat; 0%nat] (str "al") 0)
  ≡ₚ [2%nat; 1%nat; 0%nat].
Proof.
  apply (sortAndFilterSuggestions_keeps_all toLowerCaseAscii sampleStore
           [2%nat; 1%nat; 0%nat] (str "al") 0).
  - discriminate.
  - apply Qle_refl.
  - exact sampleStore_allocated.
Defined.

Lemma sortAndFilterSuggestions_threshold_above_one_witness :
  snd (sortAndFilterSuggestions toLowerCaseAscii sampleStore
         [2%nat; 1%nat; 0%nat] (str "alice") 2) = [].
Proof.
  apply (sortAndFilterSuggestions_threshold_above_one toLowerCaseAscii sampleStore
           [2%nat; 1%nat; 0%nat] (str "alice") 2).
  - discriminate.
  - reflexivity.
Defined.

Lemma sortAndFilterSuggestions_idempotent_witness :
  let ranked :=
    sortAndFilterSuggestions toLowerCaseAscii sampleStore
      [2%nat; 1%nat; 0%nat] (str "al") (1 # 2) in
  sortAndFilterSuggestions toLowerCaseAscii (fst ranked) (snd ranked)
    (str "al") (1 # 2) = ranked.
Proof.
  apply (sortAndFilterSuggestions_idempotent toLowerCaseAscii sampleStore
           [2%nat; 1%nat; 0%nat] (str "al") (1 # 2)).
  discriminate.
Defined.

Lemma addSuggestion_then_removeSuggestion_witness :
  let this := withSuggestions (onTextarea (str "hello @al") 9 false) [0%nat; 1%nat] in
  suggestions (removeSuggestion (addSuggestion this 2%nat) (str "Bob")) =
  [0%nat; 1%nat].
Proof.
  intros this.
  apply (addSuggestion_then_removeSuggestion this 2%nat
           (mkSuggestion (str "Bob") (str "Bob") None)).
  - reflexivity.
  - intros l Hl.
    repeat (apply elem_of_cons in Hl as [->|Hl]; [discriminate|]).
    by apply elem_of_nil in Hl.
Defined.

Lemma showDropdown_respects_maxSuggestions_witness :
  let this := onTextarea (str "hello @al") 9 false in
  Z.of_nat (length (snd (suggestionPipeline toLowerCaseAscii this))) <= 5 /\
  displayStyle (dropdown (showDropdown toLowerCaseAscii this (mkCoordinates 10 20) 12))
    = DisplayBlock.
Proof.
  intros this.
  destruct (showDropdown_respects_maxSuggestions toLowerCaseAscii this
              (mkCoordinates 10 20) 12) as [Hlen Hshown].
  - discriminate.
  - split; [exact Hlen|]. apply Hshown. discriminate.
Defined.

Lemma suggestionPipeline_empty_query_witness :
  let this := onTextarea (str "hello @") 7 false in
  getTriggerQuery this = [] /\
  suggestionPipeline toLowerCaseAscii this = (sampleStore, [0%nat; 1%nat; 2%nat]).
Proof.
  intros this. split; [reflexivity|].
  exact (suggestionPipeline_empty_query toLowerCaseAscii toLowerCaseAscii_empty
           this eq_refl).
Defined.

Lemma insertTag_then_text_before_caret_witness :
  let this := onTextarea (str "hello @al") 9 true in
  let textarea := mkTextControl (str "hello @al") 9 9 in
  getTextBeforeCaretForInput (insertTagForTextarea this textarea (str "Alice")) =
  str "hello @Alice ".
Proof.
  intros this textarea.
  assert (Hlast : lastOccurrenceUpTo [AT_SIGN] (str "hello @al") 9 6).
  { apply (lastIndexOf_found (str "hello @al") [AT_SIGN] 9). discriminate. }
  exact (insertTag_then_text_before_caret this textarea (str "Alice") 6 Hlast).
Defined.

Lemma insertTag_deactivates_trigger_witness :
  let this := onTextarea (str "hello @al") 9 false in
  isTriggerActive this = true /\
  isTriggerActive (insertTag this (str "Alice")) = false.
Proof.
  intros this. split; [reflexivity|].
  apply (insertTag_deactivates_trigger this (mkTextControl (str "hello @al") 9 9));
    [reflexivity | discriminate | discriminate].
Defined.

Lemma active_trigger_is_found_witness :
  let this := onTextarea (str "hello @al") 9 false in
  let textarea := mkTextControl (str "hello @al") 9 9 in
  occursAt [AT_SIGN] (str "hello @al") 6 /\
  value (insertTagForTextarea this textarea (str "Alice")) = str "hello Alice ".
Proof.
  intros this textarea.
  destruct (active_trigger_is_found this textarea (str "Alice") eq_refl eq_refl)
    as (_ & Hocc & Hvalue).
  split; [exact Hocc | exact Hvalue].
Defined.

Lemma query_holds_no_trigger_witness :
  AT_SIGN ∉ getTriggerQuery (onTextarea (str "@a@b") 4 false).
Proof.
  apply (query_holds_no_trigger (onTextarea (str "@a@b") 4 false)
           (mkTextControl (str "@a@b") 4 4) AT_SIGN);
    [reflexivity | reflexivity | discriminate | discriminate].
Defined.

Lemma editable_without_text_caret_witness :
  textBeforeCaret withoutSelection = [] /\
  getTriggerQuery withoutSelection = [] /\
  isTriggerActive withoutSelection = false /\
  nodes (document (insertTag withoutSelection (str "Bob"))) =
  nodes (document withoutSelection).
Proof.
  destruct (editable_without_text_caret withoutSelection (str "Bob") eq_refl)
    as (Hread & _ & Hnull & _).
  destruct (Hread eq_refl) as (Htext & Hquery & Hinactive).
  split; [exact Htext|]. split; [exact Hquery|].
  split; [apply Hinactive; discriminate | exact (Hnull eq_refl)].
Defined.

Lemma insertTagForContentEditable_splice_witness :
  let this := onEditable (str "hi @bo there") 6 in
  let after := insertTagForContentEditable this (str "Bob") in
  exists beforeNode tagNode afterNode,
    nodes (document after) !! 0%nat =
      Some (ElementNode [beforeNode; tagNode; afterNode]) /\
    nodes (document after) !! beforeNode = Some (TextNode (str "hi ")) /\
    nodes (document after) !! tagNode = Some (TextNode (str "Bob ")) /\
    nodes (document after) !! afterNode = Some (TextNode (str " there")) /\
    selection (document after) = Some (Some (mkRange 0%nat 2)).
Proof.
  intros this after.
  assert (Hpre : forall c : node, c ∈ @nil node ->
                   is_Some (nodes (document this) !! c)).
  { intros c Hc. by apply elem_of_nil in Hc. }
  destruct (insertTagForContentEditable_splice this (str "Bob") (mkRange 1%nat 6)
              (str "hi @bo there") 0%nat [] []
              eq_refl eq_refl ltac:(discriminate) eq_refl
              (not_elem_of_nil 1%nat) Hpre)
    as (b & t & a & _ & _ & _ & Hparent & Hb & Ht & Ha & Hsel & _).
  exists b, t, a.
  split; [exact Hparent|]. split; [exact Hb|]. split; [exact Ht|].
  split; [exact Ha | exact Hsel].
Defined.

Lemma inactive_keyup_cancels_and_hides_witness :
  let c := foldl (handle toLowerCaseAscii)
             (freshController (onTextarea (str "hello @al") 9 false) true)
             [KeyUp (fun d => (d, mkCoordinates 10 20)) 12;
              UserEdit (InputTarget (mkTextControl (str "hello @al ") 10 10))
                (mkDocument ∅ None)] in
  let c' := onKeyUp toLowerCaseAscii c (fun d => (d, mkCoordinates 10 20)) 12 in
  is_Some (timers c !! 1%positive) /\
  timers c' = ∅ /\ fetchTimeout c' = None /\
  displayStyle (dropdown (instance c')) = DisplayNone.
Proof.
  intros c c'. split; [by eexists|].
  exact (inactive_keyup_cancels_and_hides toLowerCaseAscii
           (onTextarea (str "hello @al") 9 false) true
           [KeyUp (fun d => (d, mkCoordinates 10 20)) 12;
            UserEdit (InputTarget (mkTextControl (str "hello @al ") 10 10))
              (mkDocument ∅ None)]
           (fun d => (d, mkCoordinates 10 20)) 12 eq_refl).
Defined.

Lemma destroy_keeps_listeners_witness :
  let built := construct (mkPage [] [] [] 0%nat) 7%nat in
  exists destroyed,
    destroy built 7%nat = Normal destroyed /\
    keyupListeners destroyed = [0%nat] /\
    clickListeners destroyed = [1%nat] /\
    bodyChildren destroyed = [] /\
    destroy destroyed 7%nat = Throw (str "NotFoundError").
Proof.
  intros built.
  assert (Hexist : listenersExist (mkPage [] [] [] 0%nat)).
  { intros f Hf. by apply elem_of_nil in Hf. }
  exact (destroy_keeps_listeners (mkPage [] [] [] 0%nat) 7%nat Hexist
           (not_elem_of_nil 7%nat)).
Defined.
